(** * Generic containers of the compiler library: chain, hash map, vector

    A shallow embedding of [lib/errors.h], [lib/utils.h], [lib/list.h],
    [lib/hashmap.h] and [lib/vec.h], the properties of the hash map that
    the specification states, and further properties of the three
    containers read off the code.

    Conventions of the embedding.
    - The C types [int] and [long] are signed, so the code has no
      wrap-around to rely on; their values are integers of [Z], and a
      run that would overflow one of them is outside the model.
    - A [TYPED(LinkedList)] is the sequence of payloads of the nodes
      reachable from its [root] pointer, together with its [length]
      member.  The [last] pointer addresses the final node of that
      sequence after every function of [list.h], so it is not stored.
    - [malloc] is the only source of nondeterminism: the outcomes of the
      coming calls are read from a list, [true] for a fresh block and
      [false] for [NULL].
    - A computation that would leave the bucket array or the block of a
      vector, read a slot of a vector that was never written, divide by
      zero, or ask [realloc] for no slots at all, has no result ([None]).
    - [free] has no effect on a value that the model can observe, so the
      three [_free] functions are not embedded. *)

From Stdlib Require Import ZArith Lia.
From stdpp Require Import base option list.

Local Open Scope Z_scope.

(** ** errors.h *)

Definition StatusCode : Type := Z.

Definition STATUS_OK : StatusCode := 0.
Definition ERROR_OUT_OF_MEM : StatusCode := 10.
Definition ERROR_BAD_ARG : StatusCode := 20.

(** ** utils.h: the option container generated by [DECL_OPTION] *)

(** [struct { Type item; bool present; StatusCode error; }].  The
    designated initialisers of [_none] and [_some] leave the members they
    do not name zero-filled; a zero-filled [item] holds no value and is
    [None] here. *)
Record opt (T : Type) : Type := mk_opt {
  item : option T;
  present : bool;
  error : StatusCode
}.

Arguments mk_opt {T} _ _ _.
Arguments item {T} _.
Arguments present {T} _.
Arguments error {T} _.

Definition OPT_NONE (T : Type) : opt T :=
  {| item := None; present := false; error := 0 |}.

Definition OPT_SOME {T : Type} (arg : T) : opt T :=
  {| item := Some arg; present := true; error := 0 |}.

Definition OPT_NONE_ERR (T : Type) (code : StatusCode) : opt T :=
  let out := OPT_NONE T in
  {| item := item out; present := present out; error := code |}.

(** ** The allocator *)

(** The outcomes of the calls to [malloc] still to come, first call
    first.  Once the list is used up every call succeeds. *)
Definition Heap : Type := list bool.

Definition malloc (h : Heap) : bool * Heap :=
  match h with
  | [] => (true, [])
  | ok :: h' => (ok, h')
  end.

(** ** The two C operations that can be undefined *)

(** [a % b]: undefined for a zero divisor, otherwise the remainder of
    the division that truncates towards zero. *)
Definition c_rem (a b : Z) : option Z :=
  if decide (b = 0) then None else Some (Z.rem a b).

(** [array[i]] and [array + i] followed by an access: defined inside the
    allocated block only. *)
Definition at_index {A : Type} (array : list A) (i : Z) : option A :=
  if decide (0 ≤ i) then array !! Z.to_nat i else None.

(** The first [n] slots of [array], read one after the other. *)
Definition first_slots {A : Type} (array : list A) (n : Z) : option (list A) :=
  if decide (Z.to_nat n ≤ List.length array)%nat
  then Some (take (Z.to_nat n) array) else None.

(** ** list.h *)

Module List_h.
Section Generic.
Context {TYPE : Type}.

Record LinkedList : Type := mk_list {
  root : list TYPE;
  length : Z
}.

Definition _ll_new : LinkedList :=
  {| root := []; length := 0 |}.

Definition _ll_pushb (list : LinkedList) (item : TYPE) (h : Heap)
    : StatusCode * LinkedList * Heap :=
  match malloc h with
  | (false, h') => (ERROR_OUT_OF_MEM, list, h')
  | (true, h') =>
      match root list with
      | [] => (STATUS_OK, {| root := [item]; length := 1 |}, h')
      | _ :: _ =>
          (STATUS_OK,
           {| root := root list ++ [item]; length := length list + 1 |},
           h')
      end
  end.

Definition _ll_popb (list : LinkedList) : opt TYPE * LinkedList :=
  match root list with
  | [] => (OPT_NONE TYPE, list)
  | [item] => (OPT_SOME item, {| root := []; length := 0 |})
  | first :: rest =>
      match last rest with
      | Some item =>
          (OPT_SOME item,
           {| root := removelast (root list); length := length list - 1 |})
      | None => (OPT_NONE TYPE, list)
      end
  end.

Definition _ll_pushf (list : LinkedList) (item : TYPE) (h : Heap)
    : StatusCode * LinkedList * Heap :=
  match malloc h with
  | (false, h') => (ERROR_OUT_OF_MEM, list, h')
  | (true, h') =>
      match root list with
      | [] => (STATUS_OK, {| root := [item]; length := 1 |}, h')
      | _ :: _ =>
          (STATUS_OK,
           {| root := item :: root list; length := length list + 1 |},
           h')
      end
  end.

Definition _ll_popf (list : LinkedList) : opt TYPE * LinkedList :=
  match root list with
  | [] => (OPT_NONE TYPE, list)
  | [item] => (OPT_SOME item, {| root := []; length := 0 |})
  | item :: next =>
      (OPT_SOME item, {| root := next; length := length list - 1 |})
  end.

Fixpoint includes_from (cmp : TYPE → TYPE → bool) (item : TYPE)
    (curr : list TYPE) : bool :=
  match curr with
  | [] => false
  | data :: next => if cmp data item then true else includes_from cmp item next
  end.

Definition _ll_includes (list : LinkedList) (cmp : TYPE → TYPE → bool)
    (item : TYPE) : bool :=
  includes_from cmp item (root list).

(** A node pointer is the position of the node in the chain; [prev] is
    [None] for [NULL]. *)
Definition _ll_remove (list : LinkedList) (node : nat) (prev : option nat)
    : LinkedList :=
  match root list with
  | [] => list
  | _ :: _ =>
      if decide (node = 0%nat) then (_ll_popf list).2
      else if decide (S node = List.length (root list)) then (_ll_popb list).2
      else
        match prev with
        | Some p =>
            if decide (S p = node)
            then {| root := delete node (root list); length := length list - 1 |}
            else list
        | None => list
        end
  end.

End Generic.
Arguments LinkedList : clear implicits.
End List_h.

(** ** hashmap.h *)

Module Hashmap_h.
Import List_h.
Section Generic.
Context {KEY VAL : Type}.

Definition INITIAL_HASHMAP_CAPACITY : Z := 100.

(** The factor is the [double] 2.0; the product with a [long] is exact
    as long as the capacity is below 2^52, and is an integer here. *)
Definition HASHMAP_GROWTH_FACTOR : Z := 2.

Record HMapEntry : Type := mk_entry {
  key : KEY;
  val : VAL
}.

Definition HashFunc : Type := KEY → Z.
Definition KeyCmp : Type := KEY → KEY → bool.

Record HashMap : Type := mk_map {
  buckets : list (LinkedList HMapEntry);
  size : Z;
  capacity : Z;
  hash_func : HashFunc;
  key_cmp : KeyCmp
}.

(** Writes through the pointers [map->buckets + pos] and [&map->size]. *)
Definition set_bucket (map : HashMap) (pos : Z) (l : LinkedList HMapEntry)
    : HashMap :=
  {| buckets := <[Z.to_nat pos := l]> (buckets map);
     size := size map;
     capacity := capacity map;
     hash_func := hash_func map;
     key_cmp := key_cmp map |}.

Definition set_size (map : HashMap) (n : Z) : HashMap :=
  {| buckets := buckets map;
     size := n;
     capacity := capacity map;
     hash_func := hash_func map;
     key_cmp := key_cmp map |}.

(** The inner loop of [_resize] for one old chain: [_ll_popf] hands out
    the nodes front to back until the chain is empty, and each entry is
    pushed on the front of its new chain.  The status of [_ll_pushf] is
    dropped, as in the source. *)
Fixpoint move_entries (hash : HashFunc) (new_capacity : Z)
    (curr : list HMapEntry) (new_buckets : list (LinkedList HMapEntry))
    (h : Heap) : option (list (LinkedList HMapEntry) * Heap) :=
  match curr with
  | [] => Some (new_buckets, h)
  | entry :: next =>
      new_pos ← c_rem (hash (key entry)) new_capacity;
      l ← at_index new_buckets new_pos;
      let '(_, l', h') := _ll_pushf l entry h in
      move_entries hash new_capacity next
        (<[Z.to_nat new_pos := l']> new_buckets) h'
  end.

(** The outer loop of [_resize] over the old bucket array.  [_ll_free]
    finds each drained chain empty and does nothing. *)
Fixpoint move_buckets (hash : HashFunc) (new_capacity : Z)
    (old : list (LinkedList HMapEntry))
    (new_buckets : list (LinkedList HMapEntry))
    (h : Heap) : option (list (LinkedList HMapEntry) * Heap) :=
  match old with
  | [] => Some (new_buckets, h)
  | l :: rest =>
      '(new_buckets', h') ← move_entries hash new_capacity (root l) new_buckets h;
      move_buckets hash new_capacity rest new_buckets' h'
  end.

Definition _resize (map : HashMap) (h : Heap)
    : option (StatusCode * HashMap * Heap) :=
  let new_capacity := HASHMAP_GROWTH_FACTOR * capacity map in
  match malloc h with
  | (false, h') => Some (ERROR_OUT_OF_MEM, map, h')
  | (true, h') =>
      let new_buckets := replicate (Z.to_nat new_capacity) _ll_new in
      old ← first_slots (buckets map) (capacity map);
      '(new_buckets', h'') ←
        move_buckets (hash_func map) new_capacity old new_buckets h';
      Some (STATUS_OK,
            {| buckets := new_buckets';
               size := size map;
               capacity := new_capacity;
               hash_func := hash_func map;
               key_cmp := key_cmp map |},
            h'')
  end.

Definition _hmap_new_cap (hash : HashFunc) (cmp : KeyCmp) (cap : Z)
    (h : Heap) : opt HashMap * Heap :=
  match malloc h with
  | (false, h') => (OPT_NONE_ERR HashMap ERROR_OUT_OF_MEM, h')
  | (true, h') =>
      let out :=
        {| buckets := replicate (Z.to_nat cap) _ll_new;
           capacity := cap;
           size := 0;
           hash_func := hash;
           key_cmp := cmp |} in
      (OPT_SOME out, h')
  end.

Definition _hmap_new (hash : HashFunc) (cmp : KeyCmp) (h : Heap)
    : opt HashMap * Heap :=
  _hmap_new_cap hash cmp INITIAL_HASHMAP_CAPACITY h.

(** The scan of [_hmap_put]: the first node whose key matches gets the
    new value in place; [None] when the scan reaches the end. *)
Fixpoint put_scan (cmp : KeyCmp) (k : KEY) (v : VAL)
    (curr : list HMapEntry) : option (list HMapEntry) :=
  match curr with
  | [] => None
  | data :: next =>
      if cmp (key data) k
      then Some ({| key := key data; val := v |} :: next)
      else (data ::.) <$> put_scan cmp k v next
  end.

Definition _hmap_put (map : HashMap) (k : KEY) (v : VAL) (h : Heap)
    : option (StatusCode * HashMap * Heap) :=
  let hash := hash_func map k in
  pos ← c_rem hash (capacity map);
  l ← at_index (buckets map) pos;
  if decide (length l = 0) then
    let entry := {| key := k; val := v |} in
    let '(res, l', h') := _ll_pushb l entry h in
    let map := set_bucket map pos l' in
    if decide (res ≠ 0) then Some (res, map, h')
    else
      let map := set_size map (size map + 1) in
      if decide (size map = capacity map + 1) then
        '(error, map', h'') ← _resize map h';
        if decide (error ≠ 0) then Some (error, map', h'')
        else Some (STATUS_OK, map', h'')
      else Some (STATUS_OK, map, h')
  else
    match put_scan (key_cmp map) k v (root l) with
    | Some nodes =>
        Some (STATUS_OK,
              set_bucket map pos {| root := nodes; length := length l |},
              h)
    | None =>
        let entry := {| key := k; val := v |} in
        let '(res, l', h') := _ll_pushb l entry h in
        let map := set_bucket map pos l' in
        if decide (res ≠ 0) then Some (res, map, h')
        else
          let map := set_size map (size map + 1) in
          if decide (size map = capacity map + 1) then _resize map h'
          else Some (STATUS_OK, map, h')
    end.

(** The scan of [_hmap_get]: the node the loop stops at. *)
Fixpoint get_scan (cmp : KeyCmp) (k : KEY) (curr : list HMapEntry)
    : option HMapEntry :=
  match curr with
  | [] => None
  | data :: next =>
      if negb (cmp (key data) k) then get_scan cmp k next else Some data
  end.

Definition _hmap_get (map : HashMap) (k : KEY)
    : option (opt VAL * HashMap) :=
  pos ← c_rem (hash_func map k) (capacity map);
  l ← at_index (buckets map) pos;
  match get_scan (key_cmp map) k (root l) with
  | Some data => Some (OPT_SOME (val data), map)
  | None => Some (OPT_NONE VAL, map)
  end.

(** The scan of [_hmap_remove]: the final [prev], and the position and
    payload of the final [curr] when it is not [NULL]. *)
Fixpoint remove_scan (cmp : KeyCmp) (k : KEY) (prev : option nat)
    (at_pos : nat) (curr : list HMapEntry)
    : option nat * option (nat * HMapEntry) :=
  match curr with
  | [] => (prev, None)
  | data :: next =>
      if negb (cmp (key data) k)
      then remove_scan cmp k (Some at_pos) (S at_pos) next
      else (prev, Some (at_pos, data))
  end.

Definition _hmap_remove (map : HashMap) (k : KEY)
    : option (opt VAL * HashMap) :=
  pos ← c_rem (hash_func map k) (capacity map);
  l ← at_index (buckets map) pos;
  match remove_scan (key_cmp map) k None 0%nat (root l) with
  | (_, None) => Some (OPT_NONE VAL, map)
  | (prev, Some (curr, data)) =>
      let v := val data in
      let map := set_bucket map pos (_ll_remove l curr prev) in
      let map := set_size map (size map - 1) in
      Some (OPT_SOME v, map)
  end.

End Generic.
Arguments HMapEntry : clear implicits.
Arguments HashMap : clear implicits.
Arguments HashFunc : clear implicits.
Arguments KeyCmp : clear implicits.
End Hashmap_h.

(** ** vec.h *)

Module Vec_h.

(** [realloc] of a block to [n] slots, [n] positive: [NULL], with the old
    block as it was, or a block of [n] slots that begins with the old
    contents, as far as they fit.  What a request for zero bytes does is
    left to the implementation, and a negative count is no size at all;
    neither has a result here. *)
Definition realloc {A : Type} (block : list (option A)) (n : Z) (h : Heap)
    : option (option (list (option A)) * Heap) :=
  if decide (n ≤ 0) then None
  else
    match malloc h with
    | (false, h') => Some (None, h')
    | (true, h') =>
        Some (Some (take (Z.to_nat n) block
                    ++ replicate (Z.to_nat n - List.length block) None),
              h')
    end.

Section Generic.
Context {TYPE : Type}.


(** [v] is the block that the pointer addresses, slot by slot; a slot
    that was never written holds no value. *)
Record Vec : Type := mk_vec {
  v : list (option TYPE);
  capacity : Z;
  length : Z
}.


Definition _vec_new_cap (cap : Z) (h : Heap) : opt Vec * Heap :=
  if decide (cap = 0) then (OPT_NONE_ERR Vec ERROR_BAD_ARG, h)
  else
    match malloc h with
    | (false, h') => (OPT_NONE_ERR Vec ERROR_OUT_OF_MEM, h')
    | (true, h') =>
        let out :=
          {| v := replicate (Z.to_nat cap) None;
             capacity := cap;
             length := 0 |} in
        (OPT_SOME out, h')
    end.

(** [1.5 * capacity] converted to [long]: the product is exact in a
    [double] as long as the capacity is below 2^52, and the conversion
    drops the fraction. *)
Definition grown (cap : Z) : Z := Z.quot (3 * cap) 2.

(** [vec->v[vec->length++] = item], a write that is defined inside the
    block only. *)
Definition store_back (vec : Vec) (item : TYPE) : option Vec :=
  _ ← at_index (v vec) (length vec);
  Some {| v := <[Z.to_nat (length vec) := Some item]> (v vec);
          capacity := capacity vec;
          length := length vec + 1 |}.

Definition _vec_push (vec : Vec) (item : TYPE) (h : Heap)
    : option (StatusCode * Vec * Heap) :=
  if decide (length vec = capacity vec) then
    let new_capacity := grown (capacity vec) in
    '(new_v, h') ← realloc (v vec) new_capacity h;
    match new_v with
    | None => Some (ERROR_OUT_OF_MEM, vec, h')
    | Some new_v =>
        let vec := {| v := new_v; capacity := new_capacity; length := length vec |} in
        vec ← store_back vec item;
        Some (STATUS_OK, vec, h')
    end
  else
    vec ← store_back vec item;
    Some (STATUS_OK, vec, h).

Definition _vec_pop (vec : Vec) : option (opt TYPE * Vec) :=
  if decide (length vec = 0) then Some (OPT_NONE TYPE, vec)
  else
    let vec := {| v := v vec; capacity := capacity vec; length := length vec - 1 |} in
    slot ← at_index (v vec) (length vec);
    item ← slot;
    Some (OPT_SOME item, vec).

Definition _vec_shrink (vec : Vec) (h : Heap)
    : option (StatusCode * Vec * Heap) :=
  '(new_v, h') ← realloc (v vec) (length vec) h;
  match new_v with
  | None => Some (ERROR_OUT_OF_MEM, vec, h')
  | Some new_v =>
      Some (STATUS_OK,
            {| v := new_v; capacity := length vec; length := length vec |},
            h')
  end.

End Generic.
Arguments Vec : clear implicits.
End Vec_h.

(** ** The instance of the tests: [int] keys, [TestStruct] values *)

Module Tests.
Import List_h Hashmap_h.

Record TestStruct : Type := mk_ts { x : Z; y : Z }.

Definition itod_hash_func (k : Z) : Z := k.

Definition int_cmp (a b : Z) : bool := bool_decide (a = b).

Definition IToTSHashMap : Type := HashMap Z TestStruct.

Definition ts (i : Z) : TestStruct := {| x := i; y := 2 * i |}.

(** A one-bucket map that holds key 0. *)
Definition one_bucket : IToTSHashMap :=
  {| buckets := [ {| root := [ {| key := 0; val := ts 0 |} ]; length := 1 |} ];
     size := 1;
     capacity := 1;
     hash_func := itod_hash_func;
     key_cmp := int_cmp |}.

(** A two-bucket map that holds key 0 and key 2, both in bucket 0. *)
Definition two_buckets : IToTSHashMap :=
  {| buckets :=
       [ {| root := [ {| key := 0; val := ts 0 |}; {| key := 2; val := ts 2 |} ];
            length := 2 |};
         _ll_new ];
     size := 2;
     capacity := 2;
     hash_func := itod_hash_func;
     key_cmp := int_cmp |}.

(** The loops of [struct_test], with [assert] as a conjunct: [n] more
    keys from [i] on are put, looked up, or removed. *)
Fixpoint put_loop (n : nat) (i : Z) (map : IToTSHashMap) (h : Heap)
    : option (IToTSHashMap * Heap) :=
  match n with
  | O => Some (map, h)
  | S n' =>
      '(error, map', h') ← _hmap_put map i (ts i) h;
      if bool_decide (error = 0) && bool_decide (size map' = i + 1)
      then put_loop n' (i + 1) map' h' else None
  end.

Fixpoint get_loop (n : nat) (i : Z) (map : IToTSHashMap) : bool :=
  match n with
  | O => true
  | S n' =>
      match _hmap_get map i with
      | Some (val_opt, _) =>
          present val_opt
          && bool_decide (x <$> item val_opt = Some i)
          && bool_decide (y <$> item val_opt = Some (2 * i))
          && get_loop n' (i + 1) map
      | None => false
      end
  end.

Fixpoint remove_loop (n : nat) (i : Z) (map : IToTSHashMap)
    : option IToTSHashMap :=
  match n with
  | O => Some map
  | S n' =>
      '(val_opt, map') ← _hmap_remove map i;
      if present val_opt
         && bool_decide (x <$> item val_opt = Some i)
         && bool_decide (y <$> item val_opt = Some (2 * i))
         && bool_decide (size map' = 199 - i)
      then remove_loop n' (i + 1) map' else None
  end.

Fixpoint remove_again (n : nat) (map : IToTSHashMap) : option IToTSHashMap :=
  match n with
  | O => Some map
  | S n' =>
      '(_, map') ← _hmap_remove map 5;
      if bool_decide (size map' = 0) then remove_again n' map' else None
  end.

(** [struct_test] of the hash map test, every allocation granted; the
    result is the capacity reached after the 200 insertions and the final
    map, when no assertion fails. *)
Definition struct_test : option (Z * IToTSHashMap) :=
  let '(map_opt, h) := _hmap_new itod_hash_func int_cmp [] in
  map ← item map_opt;
  '(map, _) ← put_loop 200 0 map h;
  if get_loop 200 0 map then
    map' ← remove_loop 200 0 map;
    map'' ← remove_again 10 map';
    Some (capacity map, map'')
  else None.

(** Construction with one bucket, then [put] of key 0 and of key 1, with
    the allocations numbered as they are requested. *)
Definition two_puts (h : Heap) : option (StatusCode * IToTSHashMap * Heap) :=
  let '(map_opt, h0) := _hmap_new_cap itod_hash_func int_cmp 1 h in
  map ← item map_opt;
  '(error, map, h1) ← _hmap_put map 0 (ts 0) h0;
  if decide (error = STATUS_OK) then _hmap_put map 1 (ts 1) h1 else None.
End Tests.

(** ** Vocabulary of the specification *)

Module Spec.
Import List_h Hashmap_h.

(** The count of a chain is the number of its nodes. *)
Definition chain_ok {TYPE : Type} (l : LinkedList TYPE) : Prop :=
  length l = Z.of_nat (List.length (root l)).

(** The node before position [node], as [_hmap_remove] tracks it. *)
Definition node_before (node : nat) : option nat :=
  match node with
  | O => None
  | S p => Some p
  end.

(** Every coming allocation succeeds. *)
Definition granted (h : Heap) : Prop := Forall (λ ok, ok = true) h.

Section Generic.
Context {KEY VAL : Type}.

Abbreviation Entry := (HMapEntry KEY VAL).
Abbreviation Chain := (LinkedList Entry).
Abbreviation Map := (HashMap KEY VAL).

(** The bucket array has [capacity] slots, and there is at least one. *)
Definition slots_ok (map : Map) : Prop :=
  1 ≤ capacity map ∧ List.length (buckets map) = Z.to_nat (capacity map).

(** Sum of the chain counts over all buckets. *)
Definition chain_counts (bs : list Chain) : Z :=
  foldr (λ l n, length l + n) 0 bs.

(** All entries of the map, bucket after bucket. *)
Definition entries (bs : list Chain) : list Entry :=
  concat (root <$> bs).

(** No two entries of the list have keys that the comparison equates. *)
Fixpoint distinct_keys (cmp : KeyCmp KEY) (es : list Entry) : Prop :=
  match es with
  | [] => True
  | e :: es' =>
      Forall (λ e', cmp (key e) (key e') = false ∧ cmp (key e') (key e) = false) es'
      ∧ distinct_keys cmp es'
  end.

(** The two parts of the size-and-uniqueness invariant. *)
Definition size_is_count (map : Map) : Prop :=
  size map = chain_counts (buckets map).

Definition one_entry_per_key (map : Map) : Prop :=
  distinct_keys (key_cmp map) (entries (buckets map)).

(** The key occurs nowhere in the map. *)
Definition absent (map : Map) (k : KEY) : Prop :=
  ∀ l e, l ∈ buckets map → e ∈ root l → key_cmp map (key e) k = false.

(** The first entry of a chain whose key matches, in the words of the
    specification of [get]. *)
Definition first_match (cmp : KeyCmp KEY) (k : KEY) (chain : list Entry)
    : option Entry :=
  List.find (λ e, cmp (key e) k) chain.

(** The answer of [get] for a chain: present with the value of the
    first match, else absent without error code. *)
Definition answer (found : option Entry) : opt VAL :=
  match found with
  | Some e => OPT_SOME (val e)
  | None => OPT_NONE VAL
  end.

(** [n] calls of [_hmap_remove] with the same key, one after the other:
    the results in order and the final map. *)
Fixpoint remove_times (n : nat) (map : Map) (k : KEY)
    : option (list (opt VAL) * Map) :=
  match n with
  | O => Some ([], map)
  | S n' =>
      '(r, map') ← _hmap_remove map k;
      '(rs, map'') ← remove_times n' map' k;
      Some (r :: rs, map'')
  end.

(** The map right after a new entry went to the back of chain [pos] and
    [size] was incremented, before the growth check. *)
Definition with_new_entry (map : Map) (pos : Z) (l : Chain) (k : KEY)
    (v : VAL) : Map :=
  set_size
    (set_bucket map pos
       {| root := root l ++ [ {| key := k; val := v |} ];
          length := length l + 1 |})
    (size map + 1).

(** What the caller owes: the comparison is an equivalence and equal
    keys hash alike. *)
Record consistent (hash : HashFunc KEY) (cmp : KeyCmp KEY) : Prop := {
  cmp_refl : ∀ a, cmp a a = true;
  cmp_sym : ∀ a b, cmp a b = true → cmp b a = true;
  cmp_trans : ∀ a b c, cmp a b = true → cmp b c = true → cmp a c = true;
  cmp_hash : ∀ a b, cmp a b = true → hash a = hash b
}.

(** Every entry sits in the bucket that its hash selects. *)
Definition homed (hash : HashFunc KEY) (cap : Z) (bs : list Chain) : Prop :=
  ∀ i l e, bs !! i = Some l → e ∈ root l →
    c_rem (hash (key e)) cap = Some (Z.of_nat i).

(** The representation invariant of a map. *)
Record hmap_inv (map : Map) : Prop := {
  inv_slots : List.length (buckets map) = Z.to_nat (capacity map);
  inv_chains : Forall chain_ok (buckets map);
  inv_home : homed (hash_func map) (capacity map) (buckets map);
  inv_size : size_is_count map;
  inv_distinct : one_entry_per_key map
}.

End Generic.
End Spec.

(** ** The tests of the chain and of the vector *)

Module ListTests.
Import List_h.

Definition IntLinkedList : Type := LinkedList Z.

(** [for (i = from; ...) Int_ll_pushb(&list, i)], the status unread. *)
Fixpoint pushb_loop (n : nat) (i : Z) (list : IntLinkedList) (h : Heap)
    : IntLinkedList * Heap :=
  match n with
  | O => (list, h)
  | S n' =>
      let '(_, list', h') := _ll_pushb list i h in
      pushb_loop n' (i + 1) list' h'
  end.

(** The loop that pops [n] items from the front and asserts each of them
    present, equal to [i], with [left - 1] items left. *)
Fixpoint popf_loop (n : nat) (i left : Z) (list : IntLinkedList)
    : option IntLinkedList :=
  match n with
  | O => Some list
  | S n' =>
      let '(item_opt, list') := _ll_popf list in
      if present item_opt
         && bool_decide (item item_opt = Some i)
         && bool_decide (length list' = left - 1)
      then popf_loop n' (i + 1) (left - 1) list' else None
  end.

(** Ten rounds of popping an empty list at both ends. *)
Fixpoint pop_both_ends_loop (n : nat) (list : IntLinkedList) : option IntLinkedList :=
  match n with
  | O => Some list
  | S n' =>
      let list1 := (_ll_popf list).2 in
      let list2 := (_ll_popb list1).2 in
      if bool_decide (length list2 = 0) then pop_both_ends_loop n' list2 else None
  end.

(** The loop that pops [n] items from the back and asserts each of them
    present, without error, and equal to [i]. *)
Fixpoint popb_loop (n : nat) (i : Z) (list : IntLinkedList)
    : option IntLinkedList :=
  match n with
  | O => Some list
  | S n' =>
      let '(item_opt, list') := _ll_popb list in
      if present item_opt
         && bool_decide (error item_opt = 0)
         && bool_decide (item item_opt = Some i)
      then popb_loop n' (i - 1) list' else None
  end.

(** [primitive_logic_test] of [tests/list.c], every allocation granted:
    the final list when no assertion fails. *)
Definition primitive_logic_test : option IntLinkedList :=
  let list := _ll_new in
  let '(_, list, h) := _ll_pushf list 3 [] in
  let '(_, list, h) := _ll_pushf list 2 h in
  let '(_, list, h) := _ll_pushf list 1 h in
  let '(_, list, h) := _ll_pushb list 4 h in
  let '(_, list, h) := _ll_pushb list 5 h in
  let '(_, list, h) := _ll_pushb list 6 h in
  if bool_decide (length list = 6)
     && _ll_includes list Tests.int_cmp 2
     && negb (_ll_includes list Tests.int_cmp 7)
  then
    list ← popf_loop 6 1 6 list;
    list ← pop_both_ends_loop 10 list;
    let '(list, _) := pushb_loop 100 0 list h in
    if bool_decide (length list = 100) then popb_loop 100 99 list else None
  else None.
End ListTests.

Module VecTests.
Import Vec_h.

Definition IntVec : Type := Vec Z.

(** [for (i = 0; ...) Int_vec_push(&vec, i)], the status unread. *)
Fixpoint push_loop (n : nat) (i : Z) (vec : IntVec) (h : Heap)
    : option (IntVec * Heap) :=
  match n with
  | O => Some (vec, h)
  | S n' =>
      '(_, vec', h') ← _vec_push vec i h;
      push_loop n' (i + 1) vec' h'
  end.

(** [assert(vec.v[i] == i)] for [n] indices from [i] on. *)
Fixpoint read_loop (n : nat) (i : Z) (vec : IntVec) : bool :=
  match n with
  | O => true
  | S n' => bool_decide (at_index (v vec) i = Some (Some i)) && read_loop n' (i + 1) vec
  end.

(** The loop that pops [n] items and asserts each of them present, equal
    to [i], with [i] items left. *)
Fixpoint pop_loop (n : nat) (i : Z) (vec : IntVec) : option IntVec :=
  match n with
  | O => Some vec
  | S n' =>
      '(item_opt, vec') ← _vec_pop vec;
      if present item_opt
         && bool_decide (item item_opt = Some i)
         && bool_decide (length vec' = i)
      then pop_loop n' (i - 1) vec' else None
  end.

Fixpoint pop_empty_loop (n : nat) (vec : IntVec) : option IntVec :=
  match n with
  | O => Some vec
  | S n' =>
      '(item_opt, vec') ← _vec_pop vec;
      if negb (present item_opt) && bool_decide (length vec' = 0)
      then pop_empty_loop n' vec' else None
  end.

(** [primitive_logic_test] of the vector test, every allocation granted:
    the capacity after the 1000 insertions, the capacity after the
    shrink, and the final length and capacity, when no assertion fails. *)
Definition primitive_logic_test : option (Z * Z * Z * Z) :=
  let '(vec_opt, h) := _vec_new_cap 100 [] in
  vec ← item vec_opt;
  if bool_decide (length vec = 0) then
    '(vec, h) ← push_loop 1000 0 vec h;
    if bool_decide (length vec = 1000) && read_loop 1000 0 vec then
      '(_, shrunk, _) ← _vec_shrink vec h;
      vec' ← pop_loop 1000 999 shrunk;
      vec'' ← pop_empty_loop 10 vec';
      Some (capacity vec, capacity shrunk, length vec'', capacity vec'')
    else None
  else None.
End VecTests.

(** ** Vocabulary for the chain and the vector *)

Module ListSpec.
Import List_h.
Section Generic.
Context {TYPE : Type}.

(** The items are pushed at the back one after the other; the first
    refused node ends the run. *)
Fixpoint pushb_all (items : list TYPE) (l : LinkedList TYPE) (h : Heap)
    : StatusCode * LinkedList TYPE * Heap :=
  match items with
  | [] => (STATUS_OK, l, h)
  | x :: rest =>
      let '(res, l', h') := _ll_pushb l x h in
      if decide (res ≠ 0) then (res, l', h') else pushb_all rest l' h'
  end.

(** [n] calls of [_ll_popf], respectively [_ll_popb], in a row: the
    results in order and the list that is left. *)
Fixpoint popf_times (n : nat) (l : LinkedList TYPE)
    : list (opt TYPE) * LinkedList TYPE :=
  match n with
  | O => ([], l)
  | S n' =>
      let '(r, l') := _ll_popf l in
      let '(rs, l'') := popf_times n' l' in
      (r :: rs, l'')
  end.

Fixpoint popb_times (n : nat) (l : LinkedList TYPE)
    : list (opt TYPE) * LinkedList TYPE :=
  match n with
  | O => ([], l)
  | S n' =>
      let '(r, l') := _ll_popb l in
      let '(rs, l'') := popb_times n' l' in
      (r :: rs, l'')
  end.

End Generic.
End ListSpec.

Module VecSpec.
Import Vec_h.
Section Generic.
Context {TYPE : Type}.

(** The vector holds the items [xs], in this order: [length] counts
    them, they fill the first slots of the block, and the block has
    [capacity] slots. *)
Definition holds (vec : Vec TYPE) (xs : list TYPE) : Prop :=
  length vec = Z.of_nat (List.length xs)
  ∧ length vec ≤ capacity vec
  ∧ List.length (v vec) = Z.to_nat (capacity vec)
  ∧ take (List.length xs) (v vec) = Some <$> xs.

(** The items are pushed one after the other; the first refused block
    ends the run. *)
Fixpoint push_all (items : list TYPE) (vec : Vec TYPE) (h : Heap)
    : option (StatusCode * Vec TYPE * Heap) :=
  match items with
  | [] => Some (STATUS_OK, vec, h)
  | x :: rest =>
      '(res, vec', h') ← _vec_push vec x h;
      if decide (res ≠ 0) then Some (res, vec', h') else push_all rest vec' h'
  end.

(** [n] calls of [_vec_pop] in a row. *)
Fixpoint pop_times (n : nat) (vec : Vec TYPE)
    : option (list (opt TYPE) * Vec TYPE) :=
  match n with
  | O => Some ([], vec)
  | S n' =>
      '(r, vec') ← _vec_pop vec;
      '(rs, vec'') ← pop_times n' vec';
      Some (r :: rs, vec'')
  end.

End Generic.
End VecSpec.

(** ** Vocabulary for whole runs of the map *)

Module MapSpec.
Import List_h Hashmap_h Spec.
Section Generic.
Context {KEY VAL : Type}.

(** What [get] answers, without the map that it hands back. *)
Definition lookup (map : HashMap KEY VAL) (k : KEY) : option (opt VAL) :=
  fst <$> _hmap_get map k.


End Generic.
End MapSpec.

(** ** Maps and lists to state the theorems at *)

Module Samples.
Import List_h Hashmap_h.

(** A hash that is never negative. *)
Definition abs_hash (k : Z) : Z := Z.abs k.

(** A full two-bucket map under [abs_hash], keys 0 and 2 in bucket 0. *)
Definition abs_map : HashMap Z Tests.TestStruct :=
  {| buckets :=
       [ {| root := [ {| key := 0; val := Tests.ts 0 |};
                      {| key := 2; val := Tests.ts 2 |} ];
            length := 2 |};
         _ll_new ];
     size := 2;
     capacity := 2;
     hash_func := abs_hash;
     key_cmp := Tests.int_cmp |}.

(** A list of three items. *)
Definition three : LinkedList Z := {| root := [1; 2; 3]; length := 3 |}.

(** A full vector of capacity 2 and a full vector of capacity 1. *)
Definition full_pair : Vec_h.Vec Z := Vec_h.mk_vec [Some 7; Some 8] 2 2.

Definition full_single : Vec_h.Vec Z := Vec_h.mk_vec [Some 7] 1 1.
End Samples.

(** * Properties *)

(** ** The model against the test of the repository *)

(** The model passes every assertion of [struct_test], grows once, from
    100 to 200 buckets, and ends with 200 empty chains. *)
Example struct_test_passes :
  Tests.struct_test
  = Some (200,
          {| Hashmap_h.buckets := replicate 200 List_h._ll_new;
             Hashmap_h.size := 0;
             Hashmap_h.capacity := 200;
             Hashmap_h.hash_func := Tests.itod_hash_func;
             Hashmap_h.key_cmp := Tests.int_cmp |}).
Proof. vm_compute. reflexivity. Qed.

(** The two maps that the statements below start from are states that
    the interface reaches. *)
Example one_bucket_reached :
  (let '(map_opt, h) :=
     Hashmap_h._hmap_new_cap Tests.itod_hash_func Tests.int_cmp 1 [] in
   map ← item map_opt;
   Hashmap_h._hmap_put map 0 (Tests.ts 0) h)
  = Some (STATUS_OK, Tests.one_bucket, []).
Proof. reflexivity. Qed.

Example two_buckets_reached :
  (let '(map_opt, h) :=
     Hashmap_h._hmap_new_cap Tests.itod_hash_func Tests.int_cmp 2 [] in
   map ← item map_opt;
   '(_, map, h) ← Hashmap_h._hmap_put map 0 (Tests.ts 0) h;
   Hashmap_h._hmap_put map 2 (Tests.ts 2) h)
  = Some (STATUS_OK, Tests.two_buckets, []).
Proof. reflexivity. Qed.

(** The model passes every assertion of [primitive_logic_test] of
    [tests/list.c] and ends with the empty list. *)
Example list_test_passes :
  ListTests.primitive_logic_test = Some List_h._ll_new.
Proof. vm_compute. reflexivity. Qed.

(** The model passes every assertion of [primitive_logic_test] of the
    vector test: the capacity is 1135 after the 1000 insertions, as the
    comment of the test computes, and 1000 after the shrink. *)
Example vec_test_passes :
  VecTests.primitive_logic_test = Some (1135, 1000, 0, 1000).
Proof. vm_compute. reflexivity. Qed.

(** ** The C operations and the allocator *)

Lemma c_rem_in_range (a b : Z) :
  0 ≤ a → 1 ≤ b → c_rem a b = Some (a `mod` b) ∧ 0 ≤ a `mod` b < b.
Proof.
  intros Ha Hb. unfold c_rem.
  destruct (decide (b = 0)) as [->|_]; [lia|].
  rewrite Z.rem_mod_nonneg by lia.
  split; [reflexivity | apply Z.mod_pos_bound; lia].
Qed.

Lemma at_index_in_range {A : Type} (array : list A) (i : Z) :
  0 ≤ i < Z.of_nat (List.length array) → is_Some (at_index array i).
Proof.
  intros Hi. unfold at_index.
  destruct (decide (0 ≤ i)); [|lia].
  apply lookup_lt_is_Some. lia.
Qed.

Lemma at_index_Some {A : Type} (array : list A) (i : Z) (a : A) :
  at_index array i = Some a → 0 ≤ i ∧ array !! Z.to_nat i = Some a.
Proof.
  unfold at_index. destruct (decide (0 ≤ i)); [auto | discriminate].
Qed.

Lemma at_index_insert {A : Type} (array : list A) (i : Z) (a b : A) :
  at_index array i = Some a → at_index (<[Z.to_nat i := b]> array) i = Some b.
Proof.
  intros [Hi Ha]%at_index_Some. unfold at_index.
  destruct (decide (0 ≤ i)); [|lia].
  apply list_lookup_insert_eq. eapply lookup_lt_Some, Ha.
Qed.

Lemma at_index_insert_same {A : Type} (array : list A) (i : Z) (a : A) :
  at_index array i = Some a → <[Z.to_nat i := a]> array = array.
Proof.
  intros [Hi Ha]%at_index_Some. by apply list_insert_id.
Qed.

Lemma malloc_granted (h : Heap) :
  Spec.granted h → ∃ h', malloc h = (true, h') ∧ Spec.granted h'.
Proof.
  destruct h as [|ok h]; simpl.
  - intros _. exists []. split; [reflexivity | constructor].
  - intros Hg. apply Forall_cons in Hg as [-> Hg]. eauto.
Qed.

(** ** list.h *)

Module ListFacts.
Import List_h Spec.
Section Generic.
Context {TYPE : Type}.

Lemma _ll_new_ok : chain_ok (@_ll_new TYPE).
Proof. reflexivity. Qed.

Lemma _ll_pushb_refused (l : LinkedList TYPE) (x : TYPE) (h h' : Heap) :
  malloc h = (false, h') → _ll_pushb l x h = (ERROR_OUT_OF_MEM, l, h').
Proof. intros Hm. unfold _ll_pushb. by rewrite Hm. Qed.

Lemma _ll_pushb_granted (l : LinkedList TYPE) (x : TYPE) (h h' : Heap) :
  malloc h = (true, h') → chain_ok l →
  _ll_pushb l x h =
    (STATUS_OK, {| root := root l ++ [x]; length := length l + 1 |}, h').
Proof.
  intros Hm Hl. unfold _ll_pushb. rewrite Hm.
  destruct l as [[|a nodes] n]; simpl in *; [|reflexivity].
  unfold chain_ok in Hl. simpl in Hl. by subst n.
Qed.

Lemma _ll_pushf_refused (l : LinkedList TYPE) (x : TYPE) (h h' : Heap) :
  malloc h = (false, h') → _ll_pushf l x h = (ERROR_OUT_OF_MEM, l, h').
Proof. intros Hm. unfold _ll_pushf. by rewrite Hm. Qed.

Lemma _ll_pushf_granted (l : LinkedList TYPE) (x : TYPE) (h h' : Heap) :
  malloc h = (true, h') → chain_ok l →
  _ll_pushf l x h =
    (STATUS_OK, {| root := x :: root l; length := length l + 1 |}, h').
Proof.
  intros Hm Hl. unfold _ll_pushf. rewrite Hm.
  destruct l as [[|a nodes] n]; simpl in *; [|reflexivity].
  unfold chain_ok in Hl. simpl in Hl. by subst n.
Qed.

(** [_ll_popf] hands out the nodes front to back, which is the order in
    which the inner loop of [_resize] visits them. *)
Lemma _ll_popf_cons (l : LinkedList TYPE) (x : TYPE) (next : list TYPE) :
  root l = x :: next →
  ∃ l', _ll_popf l = (OPT_SOME x, l') ∧ root l' = next.
Proof.
  intros Hr. unfold _ll_popf. rewrite Hr.
  destruct next; eexists; split; reflexivity.
Qed.

Lemma _ll_popf_nil (l : LinkedList TYPE) :
  root l = [] → _ll_popf l = (OPT_NONE TYPE, l).
Proof. intros Hr. unfold _ll_popf. by rewrite Hr. Qed.

Lemma removelast_delete (nodes : list TYPE) :
  removelast nodes = delete (Nat.pred (List.length nodes)) nodes.
Proof.
  induction nodes as [|a [|b nodes] IH]; [reflexivity..|].
  change (removelast (a :: b :: nodes)) with (a :: removelast (b :: nodes)).
  rewrite IH. reflexivity.
Qed.

(** Given a node of the chain and its true predecessor, [_ll_remove]
    takes exactly that node out and counts it off. *)
Lemma _ll_remove_at (l : LinkedList TYPE) (node : nat) :
  chain_ok l → (node < List.length (root l))%nat →
  _ll_remove l node (node_before node) =
    {| root := delete node (root l); length := length l - 1 |}.
Proof.
  intros Hl Hn. unfold _ll_remove, chain_ok in *.
  destruct l as [nodes n]. simpl in *. subst n.
  destruct nodes as [|a nodes]; [simpl in Hn; lia|].
  destruct (decide (node = 0%nat)) as [->|Hnz].
  { unfold _ll_popf. simpl. destruct nodes; simpl; f_equal; lia. }
  destruct (decide (S node = List.length (a :: nodes))) as [Hlast|Hmid].
  { unfold _ll_popb. simpl root.
    destruct nodes as [|b nodes]; [simpl in *; lia|].
    destruct (last (b :: nodes)) eqn:Hlst.
    - cbn [snd root length]. rewrite removelast_delete.
      replace (Nat.pred (List.length (a :: b :: nodes))) with node
        by (rewrite <- Hlast; reflexivity).
      reflexivity.
    - apply last_None in Hlst. discriminate. }
  destruct node as [|p]; [done|]. simpl.
  destruct (decide (S p = S p)); [reflexivity | done].
Qed.

End Generic.
End ListFacts.

(** ** hashmap.h: the scans *)

Module MapFacts.
Import List_h Hashmap_h Spec.
Section Generic.
Context {KEY VAL : Type}.

Abbreviation Entry := (HMapEntry KEY VAL).
Abbreviation Chain := (LinkedList Entry).
Abbreviation Map := (HashMap KEY VAL).

Implicit Types (map : Map) (k : KEY) (v : VAL) (h : Heap) (cmp : KeyCmp KEY)
  (chain : list Entry) (e : Entry) (l : Chain).

Lemma get_scan_first_match cmp k chain :
  get_scan cmp k chain = first_match cmp k chain.
Proof.
  induction chain as [|e chain IH]; [reflexivity|].
  simpl. destruct (cmp (key e) k); simpl; [reflexivity | exact IH].
Qed.

Lemma first_match_Some cmp k chain e :
  first_match cmp k chain = Some e → e ∈ chain ∧ cmp (key e) k = true.
Proof.
  intros [Hin He]%find_some. split; [by apply list_elem_of_In | exact He].
Qed.

Lemma first_match_None cmp k chain :
  first_match cmp k chain = None ↔ ∀ e, e ∈ chain → cmp (key e) k = false.
Proof.
  unfold first_match. split.
  - intros Hn e He. apply list_elem_of_In in He.
    exact (find_none _ _ Hn e He).
  - intros Hall. induction chain as [|e chain IH]; [reflexivity|].
    simpl. rewrite (Hall e) by constructor.
    apply IH. intros e' He'. apply Hall. by constructor.
Qed.

Lemma put_scan_first_match cmp k v chain :
  put_scan cmp k v chain = None ↔ first_match cmp k chain = None.
Proof.
  induction chain as [|e chain IH]; [done|].
  simpl. destruct (cmp (key e) k); [done|].
  destruct (put_scan cmp k v chain) as [chain'|]; simpl.
  - split; [done|]. intros Hn. apply IH in Hn. discriminate.
  - split; [|done]. intros _. by apply IH.
Qed.

(** A found key gets the new value at the node the scan of [get] stops
    at; the chain keeps its nodes and their order. *)
Lemma put_scan_overwrites cmp k v chain e :
  first_match cmp k chain = Some e →
  ∃ chain', put_scan cmp k v chain = Some chain'
    ∧ first_match cmp k chain' = Some {| key := key e; val := v |}
    ∧ List.length chain' = List.length chain.
Proof.
  induction chain as [|e0 chain IH]; [done|].
  simpl. destruct (cmp (key e0) k) eqn:Hc.
  - intros [= ->]. eexists. split; [reflexivity|]. simpl. by rewrite Hc.
  - intros (chain' & -> & Hf & Hlen)%IH. eexists. split; [reflexivity|].
    simpl. rewrite Hc. split; [exact Hf | by rewrite Hlen].
Qed.

Lemma remove_scan_no_match cmp k prev at_pos chain :
  first_match cmp k chain = None →
  (remove_scan cmp k prev at_pos chain).2 = None.
Proof.
  revert prev at_pos. induction chain as [|e chain IH]; intros prev at_pos; [done|].
  simpl. destruct (cmp (key e) k); [done|]. simpl. apply IH.
Qed.

(** The scan of [remove] stops at the first match, with its predecessor
    in hand. *)
Lemma remove_scan_match cmp k prev at_pos chain e :
  first_match cmp k chain = Some e →
  ∃ i, chain !! i = Some e
    ∧ remove_scan cmp k prev at_pos chain =
        (match i with O => prev | S p => Some (at_pos + p)%nat end,
         Some ((at_pos + i)%nat, e)).
Proof.
  revert prev at_pos. induction chain as [|e0 chain IH]; intros prev at_pos; [done|].
  simpl. destruct (cmp (key e0) k) eqn:Hc; simpl.
  - intros [= ->]. exists 0%nat. split; [reflexivity|].
    by rewrite Nat.add_0_r.
  - intros Hf. destruct (IH (Some at_pos) (S at_pos) Hf) as (i & Hi & ->).
    exists (S i). split; [exact Hi|]. f_equal.
    + destruct i; f_equal; lia.
    + do 2 f_equal. lia.
Qed.

End Generic.
End MapFacts.

(** ** hashmap.h: lookup *)

Module Lookup.
Import List_h Hashmap_h Spec MapFacts.
Section Generic.
Context {KEY VAL : Type}.

Implicit Types (map : HashMap KEY VAL) (k : KEY) (v : VAL) (h : Heap)
  (l : LinkedList (HMapEntry KEY VAL)).

Lemma home_bucket map k :
  slots_ok map → 0 ≤ hash_func map k →
  ∃ l, c_rem (hash_func map k) (capacity map)
         = Some (hash_func map k `mod` capacity map)
    ∧ 0 ≤ hash_func map k `mod` capacity map < capacity map
    ∧ at_index (buckets map) (hash_func map k `mod` capacity map) = Some l.
Proof.
  intros [Hcap Hlen] Hh.
  destruct (c_rem_in_range (hash_func map k) (capacity map) Hh Hcap) as [Hrem Hpos].
  destruct (at_index_in_range (buckets map) (hash_func map k `mod` capacity map))
    as [l Hl]; [rewrite Hlen; lia|].
  eauto.
Qed.

Lemma _hmap_get_at map k pos l :
  c_rem (hash_func map k) (capacity map) = Some pos →
  at_index (buckets map) pos = Some l →
  _hmap_get map k = Some (answer (first_match (key_cmp map) k (root l)), map).
Proof.
  intros Hpos Hl. unfold _hmap_get. rewrite Hpos. simpl. rewrite Hl. simpl.
  rewrite get_scan_first_match.
  by destruct (first_match (key_cmp map) k (root l)).
Qed.

(** C9.  With at least one bucket, as many slots as the capacity says and
    a non-negative hash, the index [hash % capacity] that [get], [put]
    and [remove] compute lies in [0, capacity) and the bucket access is
    inside the array: [get] and [remove] have a result, and so has [put]
    whenever it does not go on to resize. *)
Theorem bucket_index_in_bounds map k :
  slots_ok map → 0 ≤ hash_func map k →
  ∃ pos l,
    c_rem (hash_func map k) (capacity map) = Some pos
    ∧ 0 ≤ pos < capacity map
    ∧ at_index (buckets map) pos = Some l
    ∧ is_Some (_hmap_get map k)
    ∧ is_Some (_hmap_remove map k)
    ∧ ∀ v h, size map ≠ capacity map → is_Some (_hmap_put map k v h).
Proof.
  intros Hs Hh. destruct (home_bucket map k Hs Hh) as (l & Hpos & Hr & Hl).
  exists (hash_func map k `mod` capacity map), l.
  do 3 (split; [done|]). split; [|split].
  - rewrite (_hmap_get_at _ _ _ _ Hpos Hl). eauto.
  - unfold _hmap_remove. rewrite Hpos. simpl. rewrite Hl. simpl.
    destruct (remove_scan _ _ _ _ _) as [prev [[curr data]|]]; eauto.
  - intros v h Hsize. unfold _hmap_put. rewrite Hpos. simpl. rewrite Hl. simpl.
    assert (Hgrow : ∀ l', size (set_size (set_bucket map (hash_func map k `mod` capacity map) l') (size map + 1))
                     ≠ capacity (set_size (set_bucket map (hash_func map k `mod` capacity map) l') (size map + 1)) + 1)
      by (intros l'; simpl; lia).
    destruct (decide (length l = 0)).
    + destruct (_ll_pushb l _ h) as [[res l'] h'].
      destruct (decide (res ≠ 0)); [eauto|].
      destruct (decide _) as [Heq|]; [by apply Hgrow in Heq | eauto].
    + destruct (put_scan _ _ _ _); [eauto|].
      destruct (_ll_pushb l _ h) as [[res l'] h'].
      destruct (decide (res ≠ 0)); [eauto|].
      destruct (decide _) as [Heq|]; [by apply Hgrow in Heq | eauto].
Qed.

(** C7.  [get] reads the chain at index [hash mod capacity] and nothing
    else, and answers with the value of the first entry of that chain
    whose key matches, as present; when no entry of the chain matches it
    answers absent, and the error member of that answer is [STATUS_OK]. *)
Theorem get_first_match map k :
  slots_ok map → 0 ≤ hash_func map k →
  ∃ l r,
    buckets map !! Z.to_nat (hash_func map k `mod` capacity map) = Some l
    ∧ _hmap_get map k = Some (r, map)
    ∧ (∀ e, first_match (key_cmp map) k (root l) = Some e →
         r = {| item := Some (val e); present := true; error := STATUS_OK |})
    ∧ (first_match (key_cmp map) k (root l) = None →
         r = OPT_NONE VAL ∧ present r = false ∧ error r = STATUS_OK).
Proof.
  intros Hs Hh. destruct (home_bucket map k Hs Hh) as (l & Hpos & Hr & Hl).
  exists l, (answer (first_match (key_cmp map) k (root l))).
  split_and!.
  - by apply at_index_Some in Hl as [_ Hl].
  - by apply _hmap_get_at with (pos := hash_func map k `mod` capacity map).
  - by intros e ->.
  - by intros ->.
Qed.

(** C10.  [get] returns the map as it found it: bucket array, chains,
    size, capacity and both strategy functions. *)
Theorem get_leaves_map map k :
  slots_ok map → 0 ≤ hash_func map k →
  ∃ r, _hmap_get map k = Some (r, map).
Proof.
  intros Hs Hh. destruct (home_bucket map k Hs Hh) as (l & Hpos & Hr & Hl).
  rewrite (_hmap_get_at _ _ _ _ Hpos Hl). eauto.
Qed.

End Generic.
End Lookup.

(** ** hashmap.h: removal of a key that is not there *)

Module Removal.
Import List_h Hashmap_h Spec MapFacts Lookup.
Section Generic.
Context {KEY VAL : Type}.

Implicit Types (map : HashMap KEY VAL) (k : KEY) (v : VAL) (h : Heap)
  (l : LinkedList (HMapEntry KEY VAL)).

Lemma _hmap_remove_no_match map k pos l :
  c_rem (hash_func map k) (capacity map) = Some pos →
  at_index (buckets map) pos = Some l →
  first_match (key_cmp map) k (root l) = None →
  _hmap_remove map k = Some (OPT_NONE VAL, map).
Proof.
  intros Hpos Hl Hnone. unfold _hmap_remove. rewrite Hpos. simpl. rewrite Hl. simpl.
  pose proof (remove_scan_no_match (key_cmp map) k None 0%nat (root l) Hnone) as Hscan.
  destruct (remove_scan _ _ _ _ _) as [prev [[curr data]|]]; [discriminate | reflexivity].
Qed.

(** C8.  Removing a key that occurs nowhere in the map answers absent
    with error member [STATUS_OK] and returns the very same map: size,
    capacity and every bucket are as before.  The same holds for any
    number of such calls in a row. *)
Theorem remove_absent_key map k (n : nat) :
  slots_ok map → 0 ≤ hash_func map k → absent map k →
  _hmap_remove map k = Some (OPT_NONE VAL, map)
  ∧ present (OPT_NONE VAL) = false
  ∧ error (OPT_NONE VAL) = STATUS_OK
  ∧ remove_times n map k = Some (replicate n (OPT_NONE VAL), map).
Proof.
  intros Hs Hh Habs. destruct (home_bucket map k Hs Hh) as (l & Hpos & Hr & Hl).
  assert (Hrm : _hmap_remove map k = Some (OPT_NONE VAL, map)).
  { apply _hmap_remove_no_match with (pos := hash_func map k `mod` capacity map) (l := l);
      [done..|].
    apply first_match_None. intros e He. apply (Habs l e); [|done].
    apply at_index_Some in Hl as [_ Hl]. by eapply list_elem_of_lookup_2. }
  do 3 (split; [done|]).
  induction n as [|n IH]; [reflexivity|].
  simpl. rewrite Hrm. simpl. rewrite IH. reflexivity.
Qed.

End Generic.
End Removal.

(** ** hashmap.h: the update path of [put] *)

Module Update.
Import List_h Hashmap_h Spec MapFacts Lookup.
Section Generic.
Context {KEY VAL : Type}.

Implicit Types (map : HashMap KEY VAL) (k : KEY) (v : VAL) (h : Heap)
  (l : LinkedList (HMapEntry KEY VAL)).

(** One [put] of a key that [get] finds: the first match gets the value,
    nothing is allocated, and size, capacity and the number of slots stay. *)
Lemma _hmap_put_found map k v h pos l e :
  c_rem (hash_func map k) (capacity map) = Some pos →
  at_index (buckets map) pos = Some l →
  chain_ok l →
  first_match (key_cmp map) k (root l) = Some e →
  ∃ chain',
    put_scan (key_cmp map) k v (root l) = Some chain'
    ∧ _hmap_put map k v h
        = Some (STATUS_OK,
                set_bucket map pos {| root := chain'; length := length l |}, h)
    ∧ chain_ok {| root := chain'; length := length l |}
    ∧ first_match (key_cmp map) k chain' = Some {| key := key e; val := v |}.
Proof.
  intros Hpos Hl Hok He. unfold _hmap_put. rewrite Hpos. simpl. rewrite Hl. simpl.
  destruct (put_scan_overwrites (key_cmp map) k v (root l) e He)
    as (chain' & Hput & Hfirst & Hlen).
  destruct (decide (length l = 0)) as [Hz|_].
  { unfold chain_ok in Hok. rewrite Hz in Hok.
    destruct (root l); [discriminate | simpl in Hok; lia]. }
  rewrite Hput. exists chain'. do 2 (split; [reflexivity|]). split; [|exact Hfirst].
  unfold chain_ok in *. simpl. by rewrite Hlen.
Qed.

(** C5.  For a key that [get] finds, [put] with [v1] followed by [put]
    with [v2] leaves size and capacity as they were; neither call
    allocates, so no resize is started; and [get] then answers [v2]. *)
Theorem put_twice_overwrites map k (v1 v2 : VAL) h :
  Forall chain_ok (buckets map) →
  (∃ r, _hmap_get map k = Some (r, map) ∧ present r = true) →
  ∃ m1 m2,
    _hmap_put map k v1 h = Some (STATUS_OK, m1, h)
    ∧ _hmap_put m1 k v2 h = Some (STATUS_OK, m2, h)
    ∧ size m1 = size map ∧ size m2 = size map
    ∧ capacity m1 = capacity map ∧ capacity m2 = capacity map
    ∧ List.length (buckets m2) = List.length (buckets map)
    ∧ _hmap_get m2 k = Some (OPT_SOME v2, m2).
Proof.
  intros Hchains (r & Hget & Hpres).
  unfold _hmap_get in Hget.
  destruct (c_rem (hash_func map k) (capacity map)) as [pos|] eqn:Hpos; [|discriminate].
  simpl in Hget.
  destruct (at_index (buckets map) pos) as [l|] eqn:Hl; [|discriminate].
  simpl in Hget. rewrite get_scan_first_match in Hget.
  destruct (first_match (key_cmp map) k (root l)) as [e|] eqn:He;
    [|injection Hget as <-; discriminate].
  assert (Hok : chain_ok l).
  { apply at_index_Some in Hl as [_ Hl].
    exact (proj1 (Forall_lookup _ _) Hchains _ _ Hl). }
  destruct (_hmap_put_found map k v1 h pos l e Hpos Hl Hok He)
    as (chain1 & _ & Hput1 & Hok1 & He1).
  set (l1 := {| root := chain1; length := length l |}) in *.
  set (m1 := set_bucket map pos l1) in *.
  assert (Hl1 : at_index (buckets m1) pos = Some l1)
    by (by apply at_index_insert with (a := l)).
  destruct (_hmap_put_found m1 k v2 h pos l1 _ Hpos Hl1 Hok1 He1)
    as (chain2 & _ & Hput2 & Hok2 & He2).
  set (l2 := {| root := chain2; length := length l1 |}) in *.
  set (m2 := set_bucket m1 pos l2) in *.
  assert (Hl2 : at_index (buckets m2) pos = Some l2)
    by (by apply at_index_insert with (a := l1)).
  exists m1, m2. do 6 (split; [done|]). split.
  - simpl. by rewrite !length_insert.
  - rewrite (_hmap_get_at m2 k pos l2 Hpos Hl2).
    change (key_cmp m2) with (key_cmp m1). change (root l2) with chain2.
    by rewrite He2.
Qed.

End Generic.
End Update.

(** ** hashmap.h: the insertion path of [put] *)

Module Insertion.
Import List_h Hashmap_h Spec ListFacts MapFacts Lookup.
Section Generic.
Context {KEY VAL : Type}.

Implicit Types (map : HashMap KEY VAL) (k : KEY) (v : VAL) (h : Heap)
  (cmp : KeyCmp KEY) (chain : list (HMapEntry KEY VAL))
  (l : LinkedList (HMapEntry KEY VAL)).

Lemma first_match_app_None cmp k chain chain' :
  first_match cmp k chain = None →
  first_match cmp k (chain ++ chain') = first_match cmp k chain'.
Proof.
  induction chain as [|e chain IH]; [done|].
  simpl. destruct (cmp (key e) k); [done | exact IH].
Qed.

Lemma get_absent_no_match map k pos l :
  c_rem (hash_func map k) (capacity map) = Some pos →
  at_index (buckets map) pos = Some l →
  _hmap_get map k = Some (OPT_NONE VAL, map) →
  first_match (key_cmp map) k (root l) = None.
Proof.
  intros Hpos Hl. rewrite (_hmap_get_at map k pos l Hpos Hl).
  by destruct (first_match (key_cmp map) k (root l)).
Qed.

Lemma set_bucket_same map pos l :
  at_index (buckets map) pos = Some l → set_bucket map pos l = map.
Proof.
  intros Hl. destruct map as [bs n c hf kc]. unfold set_bucket. simpl in *.
  by rewrite (at_index_insert_same bs pos l Hl).
Qed.

(** The resize that the empty-bucket path wraps in a test of its status
    and the resize that the other path returns directly are the same. *)
Lemma resize_status_passed map h :
  ('(error, map', h'') ← _resize map h;
   if decide (error ≠ 0) then Some (error, map', h'')
   else Some (STATUS_OK, map', h''))
  = _resize map h.
Proof.
  destruct (_resize map h) as [[[error map'] h'']|]; [|reflexivity].
  simpl. case_decide as Hz; [reflexivity|]. by rewrite Hz.
Qed.

(** A key without a match in its chain, node granted: the entry goes to
    the back of the chain, [size] is incremented, and [_resize] runs on
    that map exactly when the new size is [capacity + 1]. *)
Lemma _hmap_put_new_entry map k v h h1 pos l :
  c_rem (hash_func map k) (capacity map) = Some pos →
  at_index (buckets map) pos = Some l →
  chain_ok l →
  first_match (key_cmp map) k (root l) = None →
  malloc h = (true, h1) →
  _hmap_put map k v h =
    if decide (size map + 1 = capacity map + 1)
    then _resize (with_new_entry map pos l k v) h1
    else Some (STATUS_OK, with_new_entry map pos l k v, h1).
Proof.
  intros Hpos Hl Hok Hnone Hm. unfold _hmap_put. rewrite Hpos. simpl. rewrite Hl. simpl.
  rewrite (_ll_pushb_granted l _ h h1 Hm Hok).
  apply (put_scan_first_match _ _ v) in Hnone. rewrite Hnone.
  destruct (decide (STATUS_OK ≠ 0)) as [Hne|_]; [by destruct Hne|].
  fold (with_new_entry map pos l k v).
  change (size (with_new_entry map pos l k v)) with (size map + 1).
  change (capacity (with_new_entry map pos l k v)) with (capacity map).
  rewrite resize_status_passed.
  by destruct (decide (length l = 0)), (decide (size map + 1 = capacity map + 1)).
Qed.

(** A key without a match in its chain, node refused: [put] reports the
    failure and the map is as before. *)
Lemma _hmap_put_node_refused map k v h h1 pos l :
  c_rem (hash_func map k) (capacity map) = Some pos →
  at_index (buckets map) pos = Some l →
  first_match (key_cmp map) k (root l) = None →
  malloc h = (false, h1) →
  _hmap_put map k v h = Some (ERROR_OUT_OF_MEM, map, h1).
Proof.
  intros Hpos Hl Hnone Hm. unfold _hmap_put. rewrite Hpos. simpl. rewrite Hl. simpl.
  rewrite (_ll_pushb_refused l _ h h1 Hm).
  apply (put_scan_first_match _ _ v) in Hnone. rewrite Hnone.
  rewrite (set_bucket_same map pos l Hl).
  destruct (decide (ERROR_OUT_OF_MEM ≠ 0)) as [_|Hz]; [|by destruct Hz].
  by destruct (decide (length l = 0)).
Qed.

Lemma _resize_array_refused map h h1 :
  malloc h = (false, h1) → _resize map h = Some (ERROR_OUT_OF_MEM, map, h1).
Proof. intros Hm. unfold _resize. by rewrite Hm. Qed.

Lemma get_new_entry map k v pos l :
  c_rem (hash_func map k) (capacity map) = Some pos →
  at_index (buckets map) pos = Some l →
  first_match (key_cmp map) k (root l) = None →
  key_cmp map k k = true →
  _hmap_get (with_new_entry map pos l k v) k
    = Some (OPT_SOME v, with_new_entry map pos l k v).
Proof.
  intros Hpos Hl Hnone Hrefl.
  rewrite (_hmap_get_at _ k pos
             {| root := root l ++ [ {| key := k; val := v |} ];
                length := length l + 1 |}); [|exact Hpos|].
  - simpl. rewrite first_match_app_None by done. simpl. by rewrite Hrefl.
  - simpl. by apply at_index_insert with (a := l).
Qed.

(** C2.  [put] of a key that [get] does not find, into a map whose size
    equals its capacity, with the node granted and the new bucket array
    refused: [put] returns [ERROR_OUT_OF_MEM]; the map it leaves is the
    map as it was right after the insertion, which the failed [_resize]
    did not touch, so capacity and slot count are the old ones; and
    [get] finds the new value under the key. *)
Theorem put_resize_refused map k v h :
  Forall chain_ok (buckets map) →
  key_cmp map k k = true →
  _hmap_get map k = Some (OPT_NONE VAL, map) →
  size map = capacity map →
  ∃ pos l,
    c_rem (hash_func map k) (capacity map) = Some pos
    ∧ at_index (buckets map) pos = Some l
    ∧ _hmap_put map k v (true :: false :: h)
        = Some (ERROR_OUT_OF_MEM, with_new_entry map pos l k v, h)
    ∧ _resize (with_new_entry map pos l k v) (false :: h)
        = Some (ERROR_OUT_OF_MEM, with_new_entry map pos l k v, h)
    ∧ capacity (with_new_entry map pos l k v) = capacity map
    ∧ List.length (buckets (with_new_entry map pos l k v))
        = List.length (buckets map)
    ∧ _hmap_get (with_new_entry map pos l k v) k
        = Some (OPT_SOME v, with_new_entry map pos l k v).
Proof.
  intros Hchains Hrefl Hget Hsize.
  pose proof Hget as Hget'. unfold _hmap_get in Hget'.
  destruct (c_rem (hash_func map k) (capacity map)) as [pos|] eqn:Hpos; [|discriminate].
  simpl in Hget'.
  destruct (at_index (buckets map) pos) as [l|] eqn:Hl; [|discriminate].
  clear Hget'.
  pose proof (get_absent_no_match map k pos l Hpos Hl Hget) as Hnone.
  assert (Hok : chain_ok l).
  { apply at_index_Some in Hl as [_ Hl'].
    exact (proj1 (Forall_lookup _ _) Hchains _ _ Hl'). }
  exists pos, l. do 2 (split; [done|]). split; [|split; [|split; [|split]]].
  - rewrite (_hmap_put_new_entry map k v (true :: false :: h) (false :: h) pos l
               Hpos Hl Hok Hnone eq_refl).
    destruct (decide (size map + 1 = capacity map + 1)); [|lia].
    by apply _resize_array_refused.
  - by apply _resize_array_refused.
  - reflexivity.
  - simpl. by rewrite length_insert.
  - by apply get_new_entry.
Qed.

End Generic.
End Insertion.

(** ** Book-keeping over the bucket array *)

Module Buckets.
Import List_h Hashmap_h Spec.
Section Generic.
Context {KEY VAL : Type}.

Implicit Types (cmp : KeyCmp KEY) (e : HMapEntry KEY VAL)
  (es : list (HMapEntry KEY VAL)) (l : LinkedList (HMapEntry KEY VAL))
  (bs : list (LinkedList (HMapEntry KEY VAL))).

Lemma entries_app bs bs' : entries (bs ++ bs') = entries bs ++ entries bs'.
Proof. unfold entries. by rewrite fmap_app, concat_app. Qed.

Lemma entries_cons l bs : entries (l :: bs) = root l ++ entries bs.
Proof. reflexivity. Qed.


Lemma bucket_split bs (i : nat) l :
  bs !! i = Some l → bs = take i bs ++ l :: drop (S i) bs.
Proof. intros Hi. by rewrite take_drop_middle. Qed.

Lemma bucket_insert_split bs (i : nat) l l' :
  bs !! i = Some l → <[i := l']> bs = take i bs ++ l' :: drop (S i) bs.
Proof. intros Hi. apply insert_take_drop. by eapply lookup_lt_Some. Qed.


(** A chain that keeps its keys in place keeps the map's entries in
    place. *)
Lemma entries_insert_swap bs (i : nat) l l' :
  bs !! i = Some l →
  entries (<[i := l']> bs)
    = entries (take i bs) ++ root l' ++ entries (drop (S i) bs)
  ∧ entries bs = entries (take i bs) ++ root l ++ entries (drop (S i) bs).
Proof.
  intros Hi. split.
  - rewrite (bucket_insert_split bs i l l' Hi).
    by rewrite entries_app, entries_cons.
  - rewrite <- entries_cons, <- entries_app. by rewrite take_drop_middle.
Qed.

Lemma chain_counts_app bs bs' :
  chain_counts (bs ++ bs') = chain_counts bs + chain_counts bs'.
Proof.
  induction bs as [|l bs IH]; simpl; [lia|]. rewrite IH. lia.
Qed.

Lemma chain_counts_insert bs (i : nat) l l' :
  bs !! i = Some l →
  chain_counts (<[i := l']> bs) = chain_counts bs - length l + length l'.
Proof.
  intros Hi. rewrite (bucket_insert_split bs i l l' Hi).
  assert (chain_counts bs = chain_counts (take i bs ++ l :: drop (S i) bs)) as ->
    by (by rewrite take_drop_middle).
  rewrite !chain_counts_app. simpl. lia.
Qed.






(** *** Distinct keys *)

Lemma distinct_keys_cons cmp e es :
  distinct_keys cmp (e :: es) ↔
    (∀ e', e' ∈ es → cmp (key e) (key e') = false ∧ cmp (key e') (key e) = false)
    ∧ distinct_keys cmp es.
Proof. simpl. by rewrite Forall_forall. Qed.

Lemma distinct_keys_perm cmp es es' :
  es ≡ₚ es' → distinct_keys cmp es → distinct_keys cmp es'.
Proof.
  induction 1 as [|e es es' Hp IH|e1 e2 es|es1 es2 es3 _ IH1 _ IH2]; [done| | |auto].
  - rewrite !distinct_keys_cons. intros [Hall Hd]. split; [|auto].
    intros e' He'. apply Hall. by rewrite Hp.
  - rewrite !distinct_keys_cons. intros (H1 & H2 & Hd).
    split; [|split; [|done]].
    + intros e' [->|He']%elem_of_cons.
      * destruct (H1 e1) as [? ?]; [by left | done].
      * by apply H2.
    + intros e' He'. apply H1. by right.
Qed.

Lemma distinct_keys_app cmp es es' :
  distinct_keys cmp (es ++ es') → distinct_keys cmp es ∧ distinct_keys cmp es'.
Proof.
  induction es as [|e es IH]; [done|].
  rewrite <- app_comm_cons, !distinct_keys_cons. intros [Hall Hd].
  destruct (IH Hd) as [? ?]. split; [|done]. split; [|done].
  intros e' He'. apply Hall. apply elem_of_app. by left.
Qed.

Lemma distinct_keys_sub cmp es1 es2 es3 :
  distinct_keys cmp (es1 ++ es2 ++ es3) → distinct_keys cmp (es1 ++ es3).
Proof.
  intros Hd. apply (distinct_keys_perm cmp _ (es2 ++ es1 ++ es3)) in Hd.
  - by apply distinct_keys_app in Hd as [_ ?].
  - apply Permutation_app_swap_app.
Qed.

Lemma distinct_keys_without cmp es1 es2 es3 es4 e :
  distinct_keys cmp (es1 ++ (es2 ++ e :: es3) ++ es4) →
  distinct_keys cmp (es1 ++ (es2 ++ es3) ++ es4).
Proof.
  intros Hd.
  replace (es1 ++ (es2 ++ es3) ++ es4) with ((es1 ++ es2) ++ es3 ++ es4)
    by (by rewrite <- !app_assoc).
  apply (distinct_keys_sub cmp _ [e]).
  replace ((es1 ++ es2) ++ [e] ++ es3 ++ es4)
    with (es1 ++ (es2 ++ e :: es3) ++ es4); [done|].
  by rewrite <- !app_assoc.
Qed.


End Generic.
End Buckets.

(** ** hashmap.h: [_resize] when every re-insertion gets its node *)

Module Growth.
Import List_h Hashmap_h Spec ListFacts MapFacts Lookup Insertion Buckets.
Section Generic.
Context {KEY VAL : Type}.

Implicit Types (map : HashMap KEY VAL) (k : KEY) (v : VAL) (h : Heap)
  (hash : HashFunc KEY) (cmp : KeyCmp KEY) (e : HMapEntry KEY VAL)
  (curr : list (HMapEntry KEY VAL)) (l : LinkedList (HMapEntry KEY VAL))
  (nb old : list (LinkedList (HMapEntry KEY VAL))).


Lemma homed_insert hash (N : Z) nb (pos : Z) l l' :
  at_index nb pos = Some l →
  (∀ e, e ∈ root l' → e ∈ root l ∨ c_rem (hash (key e)) N = Some pos) →
  homed hash N nb → homed hash N (<[Z.to_nat pos := l']> nb).
Proof.
  intros [Hpos Hl]%at_index_Some Hroot Hhome i l0 e Hi He.
  destruct (decide (i = Z.to_nat pos)) as [->|Hne].
  - rewrite list_lookup_insert_eq in Hi by (by eapply lookup_lt_Some).
    injection Hi as <-. destruct (Hroot e He) as [Hold|Hnew].
    + by apply (Hhome _ l).
    + rewrite Hnew. f_equal. lia.
  - rewrite list_lookup_insert_ne in Hi by done. by apply (Hhome _ l0).
Qed.





(** *** What [get] answers in a map that satisfies the invariant *)




End Generic.
End Growth.

(** ** hashmap.h: the invariant, for runs that never lose a re-insertion *)

Module Invariant.
Import List_h Hashmap_h Spec ListFacts MapFacts Lookup Insertion Buckets Growth.
Section Generic.
Context {KEY VAL : Type}.

Implicit Types (map : HashMap KEY VAL) (k : KEY) (v : VAL) (h : Heap)
  (hash : HashFunc KEY) (cmp : KeyCmp KEY) (e : HMapEntry KEY VAL)
  (chain es : list (HMapEntry KEY VAL)) (l : LinkedList (HMapEntry KEY VAL))
  (bs : list (LinkedList (HMapEntry KEY VAL))).

Lemma hmap_inv_slots_ok map : hmap_inv map → 1 ≤ capacity map → slots_ok map.
Proof. intros Hinv Hcap. split; [done | apply Hinv]. Qed.

Lemma bucket_chain_ok map pos l :
  hmap_inv map → at_index (buckets map) pos = Some l → chain_ok l.
Proof.
  intros Hinv [_ Hl]%at_index_Some.
  exact (proj1 (Forall_lookup _ _) (inv_chains map Hinv) _ _ Hl).
Qed.






(** The removal step. *)
Lemma removed_entry_inv map pos l (i : nat) e :
  hmap_inv map → at_index (buckets map) pos = Some l → root l !! i = Some e →
  hmap_inv
    (set_size
       (set_bucket map pos {| root := delete i (root l); length := length l - 1 |})
       (size map - 1)).
Proof.
  intros Hinv Hl Hi.
  pose proof (bucket_chain_ok map pos l Hinv Hl) as Hok.
  pose proof Hl as [Hnn Hl']%at_index_Some.
  destruct Hinv as [Hslots Hchains Hhome Hsize Hdist].
  constructor; simpl.
  - by rewrite length_insert.
  - apply Forall_insert; [done|]. unfold chain_ok in *. simpl.
    rewrite length_delete by eauto. apply lookup_lt_Some in Hi. lia.
  - apply (homed_insert _ _ _ _ l); [done| |done].
    simpl. intros e' He'. left. by eapply list_elem_of_delete_inv.
  - unfold size_is_count in *. simpl.
    rewrite (chain_counts_insert _ _ l) by done. simpl. lia.
  - unfold one_entry_per_key in *. simpl.
    destruct (entries_insert_swap (buckets map) (Z.to_nat pos) l
                {| root := delete i (root l); length := length l - 1 |} Hl')
      as [-> Hold].
    rewrite Hold in Hdist. simpl.
    rewrite delete_take_drop.
    rewrite <- (take_drop_middle (root l) i e Hi) in Hdist.
    by apply distinct_keys_without in Hdist.
Qed.

End Generic.
End Invariant.

(** ** hashmap.h: what holds when no re-insertion loses its node *)

Module Preservation.
Import List_h Hashmap_h Spec ListFacts MapFacts Lookup Insertion Update Buckets
  Growth Invariant.
Section Generic.
Context {KEY VAL : Type}.

Implicit Types (map : HashMap KEY VAL) (k : KEY) (v : VAL) (h : Heap)
  (e : HMapEntry KEY VAL) (l : LinkedList (HMapEntry KEY VAL)).

(** Closes the goals about a map that kept its capacity and strategies. *)
Local Ltac kept := split; [done|]; split; [simpl; lia|]; by split.




(** X10.  [remove] keeps the invariant and never changes the capacity. *)
Theorem hmap_inv_remove map k :
  hmap_inv map → 1 ≤ capacity map → 0 ≤ hash_func map k →
  ∃ r map',
    _hmap_remove map k = Some (r, map')
    ∧ hmap_inv map'
    ∧ capacity map' = capacity map
    ∧ hash_func map' = hash_func map
    ∧ key_cmp map' = key_cmp map.
Proof.
  intros Hinv Hcap Hnn.
  destruct (home_bucket map k (hmap_inv_slots_ok map Hinv Hcap) Hnn)
    as (l & Hpos & _ & Hl).
  pose proof (bucket_chain_ok map _ l Hinv Hl) as Hok.
  unfold _hmap_remove. rewrite Hpos. simpl. rewrite Hl. simpl.
  destruct (first_match (key_cmp map) k (root l)) as [e|] eqn:Hfirst.
  - destruct (remove_scan_match (key_cmp map) k None 0%nat (root l) e Hfirst)
      as (i & Hi & ->).
    eexists _, _. split; [reflexivity|]. split; [|by simpl].
    replace (match i with O => None | S p => Some (0 + p)%nat end)
      with (node_before i) by (by destruct i).
    rewrite Nat.add_0_l.
    rewrite _ll_remove_at; [|done|by eapply lookup_lt_Some].
    by apply (removed_entry_inv map _ l i e).
  - pose proof (remove_scan_no_match (key_cmp map) k None 0%nat (root l) Hfirst).
    destruct (remove_scan _ _ _ _ _) as [prev [[curr data]|]]; [done|].
    eexists _, _. split; [reflexivity|]. kept.
Qed.

End Generic.
End Preservation.

(** ** Where the code departs from the specification *)

Module Departures.
Import List_h Hashmap_h Spec Tests.

(** C3.  The constructor has no test for a zero capacity.  When [malloc]
    hands out a block for zero bytes it returns a present map of
    capacity 0, on which every operation divides by zero; when [malloc]
    returns [NULL] it reports [ERROR_OUT_OF_MEM].  [ERROR_BAD_ARG] is
    never the answer. *)
Theorem new_cap_zero_not_rejected :
  (_hmap_new_cap (VAL := TestStruct) itod_hash_func int_cmp 0 [true]).1
    = OPT_SOME {| buckets := []; size := 0; capacity := 0;
                  hash_func := itod_hash_func; key_cmp := int_cmp |}
  ∧ (_hmap_new_cap (VAL := TestStruct) itod_hash_func int_cmp 0 [false]).1
      = OPT_NONE_ERR IToTSHashMap ERROR_OUT_OF_MEM
  ∧ (∀ h, error (_hmap_new_cap (VAL := TestStruct) itod_hash_func int_cmp 0 h).1
            ≠ ERROR_BAD_ARG)
  ∧ _hmap_put {| buckets := []; size := 0; capacity := 0;
                 hash_func := itod_hash_func; key_cmp := int_cmp |}
      7 (ts 7) [] = None.
Proof.
  split; [reflexivity|]. split; [reflexivity|]. split; [|reflexivity].
  intros [|[|] h]; discriminate.
Qed.

(** C4.  [put] of key 1 into the one-bucket map that holds key 0, node
    and new bucket array granted, the node for the re-insertion of key 0
    refused: [_resize] drops the status of [_ll_pushf], so [put] returns
    [STATUS_OK], and the entry of key 0 is in no chain any more. *)
Theorem resize_node_refused_is_silent :
  _hmap_put one_bucket 1 (ts 1) [true; true; false]
    = Some (STATUS_OK,
            {| buckets := [ _ll_new;
                            {| root := [ {| key := 1; val := ts 1 |} ];
                               length := 1 |} ];
               size := 2;
               capacity := 2;
               hash_func := itod_hash_func;
               key_cmp := int_cmp |},
            [])
  ∧ _ll_pushf (@_ll_new (HMapEntry Z TestStruct)) {| key := 0; val := ts 0 |} [false]
      = (ERROR_OUT_OF_MEM, _ll_new, []).
Proof. split; reflexivity. Qed.

(** C1.  [put] of key 1 into the full two-bucket map that holds keys 0
    and 2, with the re-insertion of key 2 refused its node: the resize
    is triggered, succeeds and doubles the capacity, yet [get] no longer
    finds key 2, which it found before. *)
Theorem resize_loses_key :
  _hmap_get two_buckets 2 = Some (OPT_SOME (ts 2), two_buckets)
  ∧ ∃ map',
      _hmap_put two_buckets 1 (ts 1) [true; true; true; false]
        = Some (STATUS_OK, map', [])
      ∧ size map' = capacity two_buckets + 1
      ∧ capacity map' = 2 * capacity two_buckets
      ∧ _hmap_get map' 0 = Some (OPT_SOME (ts 0), map')
      ∧ _hmap_get map' 1 = Some (OPT_SOME (ts 1), map')
      ∧ _hmap_get map' 2 = Some (OPT_NONE TestStruct, map').
Proof.
  split; [reflexivity|]. eexists. split; [reflexivity|].
  repeat split; reflexivity.
Qed.

(** C6.  A map is constructed with one bucket and receives key 0 and
    key 1; all allocations succeed but the one for the re-insertion of
    key 0 during the resize.  Both calls of [put] return [STATUS_OK], and
    the map then has size 2 with one entry in its chains. *)
Theorem size_invariant_broken :
  ∃ map,
    two_puts [true; true; true; true; false] = Some (STATUS_OK, map, [])
    ∧ size map = 2
    ∧ chain_counts (buckets map) = 1
    ∧ ¬ size_is_count map.
Proof.
  eexists. split; [reflexivity|]. split; [reflexivity|]. split; [reflexivity|].
  unfold size_is_count. simpl. discriminate.
Qed.

End Departures.

(** ** The theorems at the maps of the tests *)

Module Witnesses.
Import List_h Hashmap_h Spec Tests.

Lemma put_resize_refused_witness :
  (Forall chain_ok (buckets one_bucket)
   ∧ key_cmp one_bucket 1 1 = true
   ∧ _hmap_get one_bucket 1 = Some (OPT_NONE TestStruct, one_bucket)
   ∧ size one_bucket = capacity one_bucket)
  ∧ ∃ pos l,
      c_rem (hash_func one_bucket 1) (capacity one_bucket) = Some pos
      ∧ at_index (buckets one_bucket) pos = Some l
      ∧ _hmap_put one_bucket 1 (ts 1) [true; false]
          = Some (ERROR_OUT_OF_MEM, with_new_entry one_bucket pos l 1 (ts 1), [])
      ∧ _resize (with_new_entry one_bucket pos l 1 (ts 1)) [false]
          = Some (ERROR_OUT_OF_MEM, with_new_entry one_bucket pos l 1 (ts 1), [])
      ∧ capacity (with_new_entry one_bucket pos l 1 (ts 1)) = capacity one_bucket
      ∧ List.length (buckets (with_new_entry one_bucket pos l 1 (ts 1)))
          = List.length (buckets one_bucket)
      ∧ _hmap_get (with_new_entry one_bucket pos l 1 (ts 1)) 1
          = Some (OPT_SOME (ts 1), with_new_entry one_bucket pos l 1 (ts 1)).
Proof.
  split.
  - split; [repeat constructor | repeat split; reflexivity].
  - apply (Insertion.put_resize_refused one_bucket 1 (ts 1) []);
      [repeat constructor | reflexivity..].
Defined.

Lemma put_twice_overwrites_witness :
  (Forall chain_ok (buckets two_buckets)
   ∧ ∃ r, _hmap_get two_buckets 2 = Some (r, two_buckets) ∧ present r = true)
  ∧ ∃ m1 m2,
      _hmap_put two_buckets 2 (ts 5) [] = Some (STATUS_OK, m1, [])
      ∧ _hmap_put m1 2 (ts 7) [] = Some (STATUS_OK, m2, [])
      ∧ size m1 = size two_buckets ∧ size m2 = size two_buckets
      ∧ capacity m1 = capacity two_buckets ∧ capacity m2 = capacity two_buckets
      ∧ List.length (buckets m2) = List.length (buckets two_buckets)
      ∧ _hmap_get m2 2 = Some (OPT_SOME (ts 7), m2).
Proof.
  split.
  - split; [repeat constructor|].
    exists (OPT_SOME (ts 2)). split; reflexivity.
  - apply (Update.put_twice_overwrites two_buckets 2 (ts 5) (ts 7) []);
      [repeat constructor|].
    exists (OPT_SOME (ts 2)). split; reflexivity.
Defined.

Lemma get_first_match_witness :
  (slots_ok two_buckets ∧ 0 ≤ hash_func two_buckets 2)
  ∧ ∃ l r,
      buckets two_buckets
        !! Z.to_nat (hash_func two_buckets 2 `mod` capacity two_buckets) = Some l
      ∧ _hmap_get two_buckets 2 = Some (r, two_buckets)
      ∧ (∀ e, first_match (key_cmp two_buckets) 2 (root l) = Some e →
           r = {| item := Some (val e); present := true; error := STATUS_OK |})
      ∧ (first_match (key_cmp two_buckets) 2 (root l) = None →
           r = OPT_NONE TestStruct ∧ present r = false ∧ error r = STATUS_OK).
Proof.
  split.
  - split; [split; [discriminate | reflexivity] | discriminate].
  - apply (Lookup.get_first_match two_buckets 2);
      [split; [discriminate | reflexivity] | discriminate].
Defined.

Lemma remove_absent_key_witness :
  (slots_ok two_buckets ∧ 0 ≤ hash_func two_buckets 3 ∧ absent two_buckets 3)
  ∧ _hmap_remove two_buckets 3 = Some (OPT_NONE TestStruct, two_buckets)
  ∧ present (OPT_NONE TestStruct) = false
  ∧ error (OPT_NONE TestStruct) = STATUS_OK
  ∧ remove_times 10 two_buckets 3
      = Some (replicate 10 (OPT_NONE TestStruct), two_buckets).
Proof.
  assert (Habs : absent two_buckets 3).
  { intros l e Hl He. simpl in Hl.
    apply elem_of_cons in Hl as [->|Hl].
    - simpl in He. apply elem_of_cons in He as [->|He]; [reflexivity|].
      apply elem_of_cons in He as [->|He]; [reflexivity|].
      by apply elem_of_nil in He.
    - apply elem_of_cons in Hl as [->|Hl]; [by apply elem_of_nil in He|].
      by apply elem_of_nil in Hl. }
  split.
  - split; [split; [discriminate | reflexivity] | split; [discriminate | exact Habs]].
  - apply (Removal.remove_absent_key two_buckets 3 10);
      [split; [discriminate | reflexivity] | discriminate | exact Habs].
Defined.

Lemma bucket_index_in_bounds_witness :
  (slots_ok two_buckets ∧ 0 ≤ hash_func two_buckets 3)
  ∧ ∃ pos l,
      c_rem (hash_func two_buckets 3) (capacity two_buckets) = Some pos
      ∧ 0 ≤ pos < capacity two_buckets
      ∧ at_index (buckets two_buckets) pos = Some l
      ∧ is_Some (_hmap_get two_buckets 3)
      ∧ is_Some (_hmap_remove two_buckets 3)
      ∧ ∀ v h, size two_buckets ≠ capacity two_buckets →
               is_Some (_hmap_put two_buckets 3 v h).
Proof.
  split.
  - split; [split; [discriminate | reflexivity] | discriminate].
  - apply (Lookup.bucket_index_in_bounds two_buckets 3);
      [split; [discriminate | reflexivity] | discriminate].
Defined.

Lemma get_leaves_map_witness :
  (slots_ok two_buckets ∧ 0 ≤ hash_func two_buckets 0)
  ∧ ∃ r, _hmap_get two_buckets 0 = Some (r, two_buckets).
Proof.
  split.
  - split; [split; [discriminate | reflexivity] | discriminate].
  - apply (Lookup.get_leaves_map two_buckets 0);
      [split; [discriminate | reflexivity] | discriminate].
Defined.

End Witnesses.

(** ** list.h: the chain as a deque *)

Module ListProps.
Import List_h Spec ListSpec ListFacts.
Section Generic.
Context {TYPE : Type}.

Implicit Types (l : LinkedList TYPE) (x : TYPE) (xs : list TYPE) (h : Heap).

Lemma chain_ok_nil l : chain_ok l → root l = [] → l = _ll_new.
Proof.
  destruct l as [nodes n]. unfold chain_ok. simpl. intros -> ->. reflexivity.
Qed.

Lemma popf_step l x xs :
  chain_ok l → root l = x :: xs →
  _ll_popf l = (OPT_SOME x, {| root := xs; length := length l - 1 |})
  ∧ chain_ok {| root := xs; length := length l - 1 |}.
Proof.
  destruct l as [nodes n]. unfold chain_ok, _ll_popf. simpl. intros -> ->.
  split; [|simpl; lia]. destruct xs; [|reflexivity]. simpl. do 2 f_equal.
Qed.

Lemma popb_step l x xs :
  chain_ok l → root l = xs ++ [x] →
  _ll_popb l = (OPT_SOME x, {| root := xs; length := length l - 1 |})
  ∧ chain_ok {| root := xs; length := length l - 1 |}.
Proof.
  destruct l as [nodes n]. unfold chain_ok, _ll_popb. simpl. intros -> ->.
  split; [|rewrite length_app; simpl; lia].
  destruct xs as [|a xs]; [reflexivity|].
  change ((a :: xs) ++ [x]) with (a :: (xs ++ [x])).
  destruct (xs ++ [x]) as [|b rest] eqn:Hrest; [by destruct xs|].
  rewrite <- Hrest, last_snoc.
  change (a :: (xs ++ [x])) with ((a :: xs) ++ [x]).
  by rewrite removelast_last.
Qed.

Lemma pushb_all_granted xs l h :
  chain_ok l → granted h →
  pushb_all xs l h =
    (STATUS_OK,
     {| root := root l ++ xs; length := length l + Z.of_nat (List.length xs) |},
     drop (List.length xs) h)
  ∧ chain_ok {| root := root l ++ xs;
               length := length l + Z.of_nat (List.length xs) |}.
Proof.
  revert l h. induction xs as [|x xs IH]; intros l h Hok Hg.
  { simpl. rewrite app_nil_r, Z.add_0_r. destruct l. by split. }
  destruct (malloc_granted h Hg) as (h1 & Hm & Hg1).
  assert (Hh1 : drop (List.length (x :: xs)) h = drop (List.length xs) h1).
  { destruct h as [|ok h]; simpl in Hm.
    - injection Hm as <-. by rewrite !drop_nil.
    - by injection Hm as _ <-. }
  simpl pushb_all. rewrite (_ll_pushb_granted l x h h1 Hm Hok).
  destruct (decide (STATUS_OK ≠ 0)) as [Hne|_]; [by destruct Hne|].
  destruct (IH {| root := root l ++ [x]; length := length l + 1 |} h1) as [-> Hok'];
    [unfold chain_ok in *; simpl; rewrite length_app, Hok; simpl; lia | done |].
  rewrite Hh1. simpl root. simpl length.
  rewrite <- app_assoc. simpl.
  replace (length l + 1 + Z.of_nat (List.length xs))
    with (length l + Z.of_nat (S (List.length xs))) by lia.
  split; [reflexivity|].
  unfold chain_ok in *. simpl in *. rewrite <- app_assoc in Hok'. simpl in Hok'. lia.
Qed.

Lemma popf_times_empty (m : nat) :
  popf_times m (@_ll_new TYPE) = (replicate m (OPT_NONE TYPE), _ll_new).
Proof. induction m as [|m IH]; [reflexivity|]. simpl. by rewrite IH. Qed.

Lemma popb_times_empty (m : nat) :
  popb_times m (@_ll_new TYPE) = (replicate m (OPT_NONE TYPE), _ll_new).
Proof. induction m as [|m IH]; [reflexivity|]. simpl. by rewrite IH. Qed.

Lemma popf_times_drain l (m : nat) :
  chain_ok l →
  popf_times (List.length (root l) + m) l =
    ((OPT_SOME <$> root l) ++ replicate m (OPT_NONE TYPE), _ll_new).
Proof.
  remember (root l) as xs eqn:Hxs. revert l Hxs.
  induction xs as [|x xs IH]; intros l Hxs Hok.
  - rewrite (chain_ok_nil l Hok) by done. apply popf_times_empty.
  - destruct (popf_step l x xs Hok) as [Hpop Hok']; [done|].
    simpl. rewrite Hpop.
    by rewrite (IH {| root := xs; length := length l - 1 |} eq_refl Hok').
Qed.

Lemma popb_times_drain l (m : nat) :
  chain_ok l →
  popb_times (List.length (root l) + m) l =
    ((OPT_SOME <$> reverse (root l)) ++ replicate m (OPT_NONE TYPE), _ll_new).
Proof.
  remember (root l) as xs eqn:Hxs. revert l Hxs.
  induction xs as [|x xs IH] using rev_ind; intros l Hxs Hok.
  - rewrite (chain_ok_nil l Hok) by done. apply popb_times_empty.
  - destruct (popb_step l x xs Hok) as [Hpop Hok']; [done|].
    rewrite length_app, reverse_snoc. simpl.
    replace (List.length xs + 1 + m)%nat with (S (List.length xs + m)) by lia.
    simpl. rewrite Hpop.
    by rewrite (IH {| root := xs; length := length l - 1 |} eq_refl Hok').
Qed.

(** X1.  Every function of the chain keeps the count right: after a push
    at either end, granted or refused, after a pop at either end, and
    after [_ll_remove] of a node of the chain with any predecessor
    argument, [length] is again the number of nodes. *)
Theorem list_ops_keep_count l :
  chain_ok l →
  (∀ x h, chain_ok (_ll_pushb l x h).1.2)
  ∧ (∀ x h, chain_ok (_ll_pushf l x h).1.2)
  ∧ chain_ok (_ll_popf l).2
  ∧ chain_ok (_ll_popb l).2
  ∧ (∀ node prev, (node < List.length (root l))%nat →
       chain_ok (_ll_remove l node prev)).
Proof.
  intros Hok.
  assert (Hpopf : chain_ok (_ll_popf l).2).
  { destruct (root l) as [|x xs] eqn:Hr.
    - by rewrite _ll_popf_nil.
    - destruct (popf_step l x xs Hok Hr) as [-> ?]. done. }
  assert (Hpopb : chain_ok (_ll_popb l).2).
  { destruct (root l) as [|x xs _] eqn:Hr using rev_ind.
    - unfold _ll_popb. by rewrite Hr.
    - destruct (popb_step l x xs Hok Hr) as [-> ?]. done. }
  split; [|split; [|split; [done|split; [done|]]]].
  - intros x h. destruct (malloc h) as [[|] h1] eqn:Hm.
    + rewrite (_ll_pushb_granted l x h h1 Hm Hok).
      unfold chain_ok in *. simpl. rewrite length_app, Hok. simpl. lia.
    + by rewrite (_ll_pushb_refused l x h h1 Hm).
  - intros x h. destruct (malloc h) as [[|] h1] eqn:Hm.
    + rewrite (_ll_pushf_granted l x h h1 Hm Hok).
      unfold chain_ok in *. simpl. rewrite Hok. lia.
    + by rewrite (_ll_pushf_refused l x h h1 Hm).
  - intros node prev Hnode. unfold _ll_remove.
    destruct (decide (node = 0%nat)), (decide (S node = List.length (root l))),
      (root l) as [|a nodes] eqn:Hr; try done.
    destruct prev as [p|]; [|done].
    destruct (decide (S p = node)); [|done].
    unfold chain_ok in *. simpl. rewrite Hr in Hok.
    rewrite length_delete by (by apply lookup_lt_is_Some). lia.
Qed.

(** X2.  A push at the front followed by a pop at the front hands the
    item back and leaves the list exactly as it was. *)
Theorem pushf_popf_round_trip l x h h1 :
  chain_ok l → malloc h = (true, h1) →
  ∃ l1, _ll_pushf l x h = (STATUS_OK, l1, h1)
    ∧ _ll_popf l1 = (OPT_SOME x, l).
Proof.
  intros Hok Hm. eexists. split; [by apply _ll_pushf_granted|].
  destruct (popf_step {| root := x :: root l; length := length l + 1 |} x (root l))
    as [-> _]; [unfold chain_ok in *; simpl; lia | done |].
  simpl. destruct l as [nodes n]. simpl. do 2 f_equal. lia.
Qed.

(** X3.  A push at the back followed by a pop at the back hands the item
    back and leaves the list exactly as it was. *)
Theorem pushb_popb_round_trip l x h h1 :
  chain_ok l → malloc h = (true, h1) →
  ∃ l1, _ll_pushb l x h = (STATUS_OK, l1, h1)
    ∧ _ll_popb l1 = (OPT_SOME x, l).
Proof.
  intros Hok Hm. eexists. split; [by apply _ll_pushb_granted|].
  destruct (popb_step {| root := root l ++ [x]; length := length l + 1 |} x (root l))
    as [-> _]; [unfold chain_ok in *; simpl; rewrite length_app; simpl; lia | done |].
  simpl. destruct l as [nodes n]. simpl. do 2 f_equal. lia.
Qed.

(** X4.  The chain is a queue: after the items [xs] were pushed at the
    back, with their nodes granted, pops at the front hand out the old
    items and then [xs], each present and in order, then only absent
    answers, and the list ends empty. *)
Theorem queue_order l xs h (m : nat) :
  chain_ok l → granted h →
  ∃ l1 h1,
    pushb_all xs l h = (STATUS_OK, l1, h1)
    ∧ length l1 = length l + Z.of_nat (List.length xs)
    ∧ popf_times (List.length (root l) + List.length xs + m) l1
        = ((OPT_SOME <$> (root l ++ xs)) ++ replicate m (OPT_NONE TYPE), _ll_new).
Proof.
  intros Hok Hg. destruct (pushb_all_granted xs l h Hok Hg) as [Hpush Hok1].
  eexists _, _. split; [exact Hpush|]. split; [reflexivity|].
  pose proof (popf_times_drain _ m Hok1) as Hdrain. simpl in Hdrain.
  by rewrite length_app in Hdrain.
Qed.

(** X5.  The chain is a stack at its back end: after the items [xs] were
    pushed at the back, pops at the back hand out [xs] and then the old
    items in reverse order, then only absent answers, and the list ends
    empty. *)
Theorem stack_order_at_back l xs h (m : nat) :
  chain_ok l → granted h →
  ∃ l1 h1,
    pushb_all xs l h = (STATUS_OK, l1, h1)
    ∧ popb_times (List.length (root l) + List.length xs + m) l1
        = ((OPT_SOME <$> reverse (root l ++ xs)) ++ replicate m (OPT_NONE TYPE),
           _ll_new).
Proof.
  intros Hok Hg. destruct (pushb_all_granted xs l h Hok Hg) as [Hpush Hok1].
  eexists _, _. split; [exact Hpush|].
  pose proof (popb_times_drain _ m Hok1) as Hdrain. simpl in Hdrain.
  by rewrite length_app in Hdrain.
Qed.

(** X6.  [_ll_includes] answers [true] exactly when some node of the
    list holds an item that the comparison equates with the one asked
    for, the stored item being its first argument. *)
Theorem includes_iff l (cmp : TYPE → TYPE → bool) x :
  _ll_includes l cmp x = true ↔ ∃ y, y ∈ root l ∧ cmp y x = true.
Proof.
  unfold _ll_includes. induction (root l) as [|a nodes IH]; simpl.
  - split; [done | by intros (y & ?%elem_of_nil & _)].
  - destruct (cmp a x) eqn:Hc.
    + split; [|done]. intros _. exists a. split; [by left | done].
    + rewrite IH. split.
      * intros (y & Hy & Hcy). exists y. split; [by right | done].
      * intros (y & [->|Hy]%elem_of_cons & Hcy); [congruence | eauto].
Qed.

(** X7.  [_ll_remove] of a node of the chain takes out exactly that node
    and counts it off when it is handed the true predecessor, and also,
    whatever the predecessor argument is, when the node is the first or
    the last one; for an inner node with any other predecessor argument,
    [NULL] included, it leaves the list as it is. *)
Theorem remove_node l (node : nat) (prev : option nat) x :
  chain_ok l → root l !! node = Some x →
  _ll_remove l node prev =
    if decide (prev = node_before node ∨ node = 0%nat
               ∨ S node = List.length (root l))
    then {| root := delete node (root l); length := length l - 1 |}
    else l.
Proof.
  intros Hok Hx.
  pose proof (_ll_remove_at l node Hok (lookup_lt_Some _ _ _ Hx)) as Hat.
  destruct (decide _) as [[->|Hend]|Hnot]; [done| |].
  - rewrite <- Hat. unfold _ll_remove.
    destruct (root l) as [|a nodes]; [done|].
    destruct (decide (node = 0%nat)); [done|].
    destruct (decide (S node = List.length (a :: nodes))); [done|].
    by destruct Hend.
  - unfold _ll_remove.
    destruct (root l) as [|a nodes] eqn:Hr; [done|].
    destruct (decide (node = 0%nat)); [by destruct Hnot; auto|].
    destruct (decide (S node = List.length (a :: nodes))); [by destruct Hnot; auto|].
    destruct prev as [p|]; [|done].
    destruct (decide (S p = node)) as [<-|]; [by destruct Hnot; left | done].
Qed.

End Generic.
End ListProps.

(** ** hashmap.h: insert, look up, remove *)

Module MapProps.
Import List_h Hashmap_h Spec MapSpec ListFacts MapFacts Lookup Insertion Update
  Buckets Growth Invariant.
Section Generic.
Context {KEY VAL : Type}.

Implicit Types (map : HashMap KEY VAL) (k : KEY) (v : VAL) (h : Heap)
  (cmp : KeyCmp KEY) (e : HMapEntry KEY VAL)
  (chain : list (HMapEntry KEY VAL)) (l : LinkedList (HMapEntry KEY VAL)).

Lemma lookup_at map k pos l :
  c_rem (hash_func map k) (capacity map) = Some pos →
  at_index (buckets map) pos = Some l →
  lookup map k = Some (answer (first_match (key_cmp map) k (root l))).
Proof.
  intros Hpos Hl. unfold lookup. by rewrite (_hmap_get_at map k pos l Hpos Hl).
Qed.

Lemma lookup_get map k r : lookup map k = Some r → _hmap_get map k = Some (r, map).
Proof.
  unfold lookup, _hmap_get.
  destruct (c_rem _ _) as [pos|]; [|done]. simpl.
  destruct (at_index _ _) as [l|]; [|done]. simpl.
  destruct (get_scan _ _ _); simpl; by intros [= <-].
Qed.

Lemma lookup_set_size map (n : Z) k : lookup (set_size map n) k = lookup map k.
Proof.
  unfold lookup, _hmap_get. simpl.
  destruct (c_rem _ _) as [pos|]; [|done]. simpl.
  destruct (at_index _ _) as [l|]; [|done]. simpl.
  by destruct (get_scan _ _ _).
Qed.

Lemma at_index_insert_ne {A : Type} (array : list A) (pos pos0 : Z) (a : A) :
  0 ≤ pos → pos ≠ pos0 →
  at_index (<[Z.to_nat pos := a]> array) pos0 = at_index array pos0.
Proof.
  intros Hpos Hne. unfold at_index. destruct (decide (0 ≤ pos0)); [|done].
  apply list_lookup_insert_ne. lia.
Qed.

(** A bucket whose chain answers a key as before leaves the answer of
    the map for that key as before. *)
Lemma lookup_set_bucket map pos l l' k0 :
  at_index (buckets map) pos = Some l →
  first_match (key_cmp map) k0 (root l') = first_match (key_cmp map) k0 (root l) →
  lookup (set_bucket map pos l') k0 = lookup map k0.
Proof.
  intros Hl Hfm. unfold lookup, _hmap_get. simpl.
  destruct (c_rem (hash_func map k0) (capacity map)) as [pos0|]; [|done]. simpl.
  destruct (decide (pos = pos0)) as [<-|Hne].
  - rewrite (at_index_insert _ _ l l' Hl), Hl. simpl.
    rewrite !get_scan_first_match, Hfm.
    destruct (first_match (key_cmp map) k0 (root l)); reflexivity.
  - rewrite at_index_insert_ne; [|by apply at_index_Some in Hl as [? _] | done].
    destruct (at_index (buckets map) pos0); [|done]. simpl.
    by destruct (get_scan _ _ _).
Qed.


Lemma first_match_delete cmp k0 chain (i : nat) e :
  chain !! i = Some e → cmp (key e) k0 = false →
  first_match cmp k0 (delete i chain) = first_match cmp k0 chain.
Proof.
  revert i. induction chain as [|e0 chain IH]; intros [|i]; try done; simpl.
  - intros [= ->] ->. done.
  - intros Hi Hc. destruct (cmp (key e0) k0); [done|]. by apply IH.
Qed.

Lemma distinct_keys_middle cmp e (es1 es2 : list (HMapEntry KEY VAL)) :
  distinct_keys cmp (es1 ++ e :: es2) →
  ∀ e', e' ∈ es1 ++ es2 →
    cmp (key e) (key e') = false ∧ cmp (key e') (key e) = false.
Proof.
  intros Hd. apply (distinct_keys_perm cmp _ (e :: es1 ++ es2)) in Hd;
    [|symmetry; apply Permutation_middle].
  apply distinct_keys_cons in Hd as [Hall _]. exact Hall.
Qed.

Lemma bucket_distinct map pos l :
  hmap_inv map → at_index (buckets map) pos = Some l →
  distinct_keys (key_cmp map) (root l).
Proof.
  intros Hinv [_ Hl]%at_index_Some.
  pose proof (inv_distinct map Hinv) as Hd. unfold one_entry_per_key in Hd.
  destruct (entries_insert_swap (buckets map) (Z.to_nat pos) l l Hl) as [_ Hsplit].
  rewrite Hsplit in Hd.
  apply distinct_keys_app in Hd as [_ Hd]. by apply distinct_keys_app in Hd as [Hd _].
Qed.

(** Once the first match of a key is taken out of a chain with distinct
    keys, the chain has no match for the key. *)
Lemma first_match_removed (hash : HashFunc KEY) cmp k chain (i : nat) e :
  consistent hash cmp → distinct_keys cmp chain →
  chain !! i = Some e → cmp (key e) k = true →
  first_match cmp k (delete i chain) = None.
Proof.
  intros Hcons Hd Hi Hc. apply first_match_None. intros e' He'.
  rewrite delete_take_drop in He'.
  rewrite <- (take_drop_middle chain i e Hi) in Hd.
  destruct (distinct_keys_middle cmp e _ _ Hd e' He') as [_ Hne].
  destruct (cmp (key e') k) eqn:Hc'; [|done].
  rewrite (cmp_trans _ _ Hcons (key e') k (key e)) in Hne;
    [done | done | by apply (cmp_sym _ _ Hcons)].
Qed.








(** X14.  [put] of a key that [get] does not find, with the node
    refused, returns [ERROR_OUT_OF_MEM] and leaves the map exactly as it
    was. *)
Theorem put_node_refused_keeps_map map k v h h1 :
  slots_ok map → 0 ≤ hash_func map k →
  lookup map k = Some (OPT_NONE VAL) →
  malloc h = (false, h1) →
  _hmap_put map k v h = Some (ERROR_OUT_OF_MEM, map, h1).
Proof.
  intros Hs Hnn Hlook Hm.
  destruct (home_bucket map k Hs Hnn) as (l & Hpos & _ & Hl).
  apply (_hmap_put_node_refused map k v h h1 _ l Hpos Hl); [|done].
  apply (get_absent_no_match map k _ l Hpos Hl). by apply lookup_get.
Qed.

(** X15.  [remove] of a key that [get] finds returns the value that [get]
    answered, takes one off the size, keeps the capacity and the
    invariant, and [get] of the key then answers absent. *)
Theorem remove_present_key map k v :
  hmap_inv map → 1 ≤ capacity map →
  consistent (hash_func map) (key_cmp map) →
  0 ≤ hash_func map k →
  lookup map k = Some (OPT_SOME v) →
  ∃ map',
    _hmap_remove map k = Some (OPT_SOME v, map')
    ∧ size map' = size map - 1
    ∧ capacity map' = capacity map
    ∧ hmap_inv map'
    ∧ lookup map' k = Some (OPT_NONE VAL).
Proof.
  intros Hinv Hcap Hcons Hnn Hlook.
  destruct (home_bucket map k (hmap_inv_slots_ok map Hinv Hcap) Hnn)
    as (l & Hpos & _ & Hl).
  pose proof (bucket_chain_ok map _ l Hinv Hl) as Hok.
  rewrite (lookup_at map k _ l Hpos Hl) in Hlook.
  set (pos := hash_func map k `mod` capacity map) in *.
  destruct (first_match (key_cmp map) k (root l)) as [e|] eqn:Hfirst; [|done].
  injection Hlook as Hv.
  destruct (remove_scan_match (key_cmp map) k None 0%nat (root l) e Hfirst)
    as (i & Hi & Hscan).
  apply first_match_Some in Hfirst as [_ Hc].
  set (l' := {| root := delete i (root l); length := length l - 1 |}).
  exists (set_size (set_bucket map pos l') (size map - 1)).
  split; [|split; [done|split; [done|split]]].
  - unfold _hmap_remove. rewrite Hpos. simpl. rewrite Hl. simpl. rewrite Hscan.
    replace (match i with O => None | S p => Some (0 + p)%nat end)
      with (node_before i) by (by destruct i).
    rewrite Nat.add_0_l.
    rewrite _ll_remove_at; [|done|by eapply lookup_lt_Some].
    by rewrite Hv.
  - by apply (removed_entry_inv map pos l i e).
  - rewrite lookup_set_size.
    rewrite (lookup_at _ k pos l'); [|exact Hpos | by apply at_index_insert with (a := l)].
    simpl.
    rewrite (first_match_removed (hash_func map) (key_cmp map) k (root l) i e);
      [done | done | by apply (bucket_distinct map pos) | done | done].
Qed.

(** X16.  [remove] leaves the other keys alone: whether it finds its key
    or not, [get] answers every key that the comparison tells apart from
    the one removed exactly as before. *)
Theorem remove_leaves_other_keys map k :
  slots_ok map → Forall chain_ok (buckets map) →
  consistent (hash_func map) (key_cmp map) →
  0 ≤ hash_func map k →
  ∃ r map',
    _hmap_remove map k = Some (r, map')
    ∧ ∀ k0, key_cmp map k k0 = false → lookup map' k0 = lookup map k0.
Proof.
  intros Hs Hchains Hcons Hnn.
  destruct (home_bucket map k Hs Hnn) as (l & Hpos & _ & Hl).
  assert (Hok : chain_ok l).
  { apply at_index_Some in Hl as [_ Hl'].
    exact (proj1 (Forall_lookup _ _) Hchains _ _ Hl'). }
  set (pos := hash_func map k `mod` capacity map) in *.
  unfold _hmap_remove. rewrite Hpos. simpl. rewrite Hl. simpl.
  destruct (first_match (key_cmp map) k (root l)) as [e|] eqn:Hfirst.
  - destruct (remove_scan_match (key_cmp map) k None 0%nat (root l) e Hfirst)
      as (i & Hi & ->).
    apply first_match_Some in Hfirst as [_ Hc].
    eexists _, _. split; [reflexivity|]. intros k0 Hk0.
    replace (match i with O => None | S p => Some (0 + p)%nat end)
      with (node_before i) by (by destruct i).
    rewrite Nat.add_0_l.
    rewrite _ll_remove_at; [|done|by eapply lookup_lt_Some].
    rewrite lookup_set_size. apply (lookup_set_bucket map pos l); [done|]. simpl.
    apply (first_match_delete _ _ _ _ e); [done|].
    destruct (key_cmp map (key e) k0) eqn:Hc0; [|done].
    rewrite (cmp_trans _ _ Hcons k (key e) k0) in Hk0;
      [done | by apply (cmp_sym _ _ Hcons) | done].
  - pose proof (remove_scan_no_match (key_cmp map) k None 0%nat (root l) Hfirst).
    destruct (remove_scan _ _ _ _ _) as [prev [[curr data]|]]; [done|].
    eexists _, _. split; [reflexivity|]. done.
Qed.

End Generic.
End MapProps.

(** ** hashmap.h: [put] whatever the allocator does *)

Module AnyAllocator.
Import List_h Hashmap_h Spec MapSpec ListFacts MapFacts Lookup Insertion Update
  Buckets Growth Invariant MapProps.
Section Generic.
Context {KEY VAL : Type}.

Implicit Types (map : HashMap KEY VAL) (k : KEY) (v : VAL) (h : Heap)
  (hash : HashFunc KEY) (cmp : KeyCmp KEY) (e : HMapEntry KEY VAL)
  (curr : list (HMapEntry KEY VAL)) (l : LinkedList (HMapEntry KEY VAL))
  (nb old : list (LinkedList (HMapEntry KEY VAL))).








End Generic.
End AnyAllocator.

(** ** vec.h *)

Module VecProps.
Import Vec_h VecSpec.
Section Generic.
Context {TYPE : Type}.

Implicit Types (vec : Vec TYPE) (x : TYPE) (xs : list TYPE) (h : Heap).

Lemma grown_more (c : Z) : 2 ≤ c → c < grown c.
Proof.
  intros Hc. unfold grown. rewrite Z.quot_div_nonneg by lia.
  assert (c + 1 ≤ (3 * c) `div` 2) by (apply Z.div_le_lower_bound; lia). lia.
Qed.

Lemma realloc_granted {A : Type} (block : list (option A)) (n : Z) h h1 :
  0 < n → malloc h = (true, h1) →
  realloc block n h =
    Some (Some (take (Z.to_nat n) block
                ++ replicate (Z.to_nat n - List.length block) None), h1).
Proof.
  intros Hn Hm. unfold realloc. destruct (decide (n ≤ 0)); [lia|]. by rewrite Hm.
Qed.

Lemma realloc_refused {A : Type} (block : list (option A)) (n : Z) h h1 :
  0 < n → malloc h = (false, h1) → realloc block n h = Some (None, h1).
Proof.
  intros Hn Hm. unfold realloc. destruct (decide (n ≤ 0)); [lia|]. by rewrite Hm.
Qed.

(** The write at the back of a vector that has a free slot. *)
Lemma store_back_holds vec xs x :
  holds vec xs → length vec < capacity vec →
  ∃ vec', store_back vec x = Some vec'
    ∧ holds vec' (xs ++ [x])
    ∧ capacity vec' = capacity vec.
Proof.
  intros (Hlen & Hle & Hslots & Hitems) Hfree.
  assert (Hin : (List.length xs < List.length (v vec))%nat) by lia.
  destruct (at_index_in_range (v vec) (length vec)) as [slot Hslot]; [lia|].
  eexists. split; [unfold store_back; by rewrite Hslot|]. split; [|reflexivity].
  unfold holds. simpl. rewrite length_app, length_insert. simpl.
  split; [lia|]. split; [lia|]. split; [done|].
  rewrite Hlen, Nat2Z.id.
  replace (List.length xs + 1)%nat with (S (List.length xs)) by lia.
  rewrite (take_S_r _ _ (Some x)) by (by apply list_lookup_insert_eq).
  rewrite take_insert_ge by lia. by rewrite Hitems, fmap_snoc.
Qed.

(** A full vector after a granted [realloc]. *)
Lemma regrown_holds vec xs :
  holds vec xs → length vec = capacity vec → 2 ≤ capacity vec →
  holds {| v := take (Z.to_nat (grown (capacity vec))) (v vec)
                ++ replicate (Z.to_nat (grown (capacity vec))
                              - List.length (v vec)) None;
           capacity := grown (capacity vec);
           length := length vec |} xs.
Proof.
  intros (Hlen & Hle & Hslots & Hitems) Hfull Hcap.
  pose proof (grown_more (capacity vec) Hcap) as Hmore.
  unfold holds. simpl. split; [done|]. split; [lia|].
  rewrite take_ge by lia. split.
  - rewrite length_app, length_replicate. lia.
  - rewrite take_app_le by lia. done.
Qed.

Lemma push_granted vec xs x h :
  holds vec xs →
  length vec < capacity vec ∨ 2 ≤ capacity vec →
  (length vec = capacity vec → (malloc h).1 = true) →
  ∃ vec' h',
    _vec_push vec x h = Some (STATUS_OK, vec', h')
    ∧ holds vec' (xs ++ [x])
    ∧ capacity vec' =
        (if decide (length vec = capacity vec)
         then grown (capacity vec) else capacity vec)
    ∧ h' = (if decide (length vec = capacity vec) then (malloc h).2 else h).
Proof.
  intros Hholds Hroom Hm. unfold _vec_push.
  destruct (decide (length vec = capacity vec)) as [Hfull|Hfree].
  - destruct Hroom as [?|Hcap]; [lia|].
    destruct (malloc h) as [ok h1] eqn:Hmalloc. simpl in Hm.
    rewrite (Hm Hfull) in Hmalloc.
    pose proof (grown_more (capacity vec) Hcap) as Hmore.
    rewrite (realloc_granted (v vec) _ h h1) by (done || lia). simpl.
    destruct (store_back_holds _ xs x (regrown_holds vec xs Hholds Hfull Hcap))
      as (vec' & -> & Hholds' & Hcap'); [simpl; lia|].
    simpl. eexists _, _. split; [reflexivity|]. split; [exact Hholds'|].
    split; [exact Hcap' | reflexivity].
  - destruct (store_back_holds vec xs x Hholds) as (vec' & -> & Hholds' & Hcap');
      [destruct Hholds as (_ & ? & _); lia|].
    simpl. eexists _, _. split; [reflexivity|]. split; [exact Hholds'|].
    split; [exact Hcap' | reflexivity].
Qed.

Lemma pop_last vec xs x :
  holds vec (xs ++ [x]) →
  ∃ vec', _vec_pop vec = Some (OPT_SOME x, vec')
    ∧ holds vec' xs
    ∧ capacity vec' = capacity vec
    ∧ v vec' = v vec.
Proof.
  intros (Hlen & Hle & Hslots & Hitems).
  rewrite length_app in Hlen, Hitems. simpl in Hlen, Hitems.
  assert (Hx : v vec !! List.length xs = Some (Some x)).
  { rewrite <- (lookup_take_lt _ (List.length xs + 1)) by lia.
    rewrite Hitems, list_lookup_fmap.
    by rewrite lookup_app_r, Nat.sub_diag by lia. }
  unfold _vec_pop. destruct (decide (length vec = 0)); [lia|]. simpl.
  unfold at_index. destruct (decide (0 ≤ length vec - 1)); [|lia].
  replace (Z.to_nat (length vec - 1)) with (List.length xs) by lia.
  rewrite Hx. simpl. eexists. split; [reflexivity|].
  split; [|done]. unfold holds. simpl. split; [lia|]. split; [lia|]. split; [done|].
  apply (f_equal (take (List.length xs))) in Hitems.
  rewrite take_take, Nat.min_l in Hitems by lia.
  rewrite Hitems, fmap_app, take_app_length'; [done | by rewrite length_fmap].
Qed.

Lemma pop_empty vec : holds vec [] → _vec_pop vec = Some (OPT_NONE TYPE, vec).
Proof.
  intros (Hlen & _). unfold _vec_pop. simpl in Hlen.
  by destruct (decide (length vec = 0)).
Qed.



(** X20.  Push then pop: on a vector that has a free slot, or is full
    with a capacity of at least 2 and gets its larger block, [push]
    followed by [pop] hands the item back, and the vector holds the same
    items as before. *)
Theorem push_pop_round_trip vec xs x h :
  holds vec xs →
  length vec < capacity vec ∨ 2 ≤ capacity vec →
  (length vec = capacity vec → (malloc h).1 = true) →
  ∃ vec1 h1 vec2,
    _vec_push vec x h = Some (STATUS_OK, vec1, h1)
    ∧ _vec_pop vec1 = Some (OPT_SOME x, vec2)
    ∧ holds vec2 xs
    ∧ length vec2 = length vec
    ∧ capacity vec2 = capacity vec1.
Proof.
  intros Hholds Hroom Hm.
  destruct (push_granted vec xs x h Hholds Hroom Hm)
    as (vec1 & h1 & Hpush & Hholds1 & _).
  destruct (pop_last vec1 xs x Hholds1) as (vec2 & Hpop & Hholds2 & Hcap2 & _).
  exists vec1, h1, vec2. do 3 (split; [done|]). split; [|done].
  destruct Hholds as (-> & _), Hholds2 as (-> & _). done.
Qed.

(** X21.  A full vector of capacity 1 cannot grow: [1.5 * 1] rounds down
    to 1, so the granted [realloc] hands back a block of one slot, and
    the write of the pushed item at index 1 lies outside it. *)
Theorem push_capacity_one_overflows vec x0 x h h1 :
  holds vec [x0] → capacity vec = 1 → malloc h = (true, h1) →
  realloc (v vec) (grown (capacity vec)) h = Some (Some (v vec), h1)
  ∧ List.length (v vec) = 1%nat
  ∧ at_index (v vec) (length vec) = None
  ∧ _vec_push vec x h = None.
Proof.
  intros (Hlen & Hle & Hslots & Hitems) Hcap Hm. simpl in Hlen.
  rewrite Hcap in Hslots. change (Z.to_nat 1) with 1%nat in Hslots.
  assert (Hre : realloc (v vec) (grown (capacity vec)) h = Some (Some (v vec), h1)).
  { rewrite Hcap. rewrite (realloc_granted (v vec) (grown 1) h h1) by done.
    change (Z.to_nat (grown 1)) with 1%nat.
    rewrite take_ge by lia. rewrite Hslots. simpl. by rewrite app_nil_r. }
  assert (Hout : at_index (v vec) (length vec) = None).
  { unfold at_index. destruct (decide (0 ≤ length vec)); [|done].
    apply lookup_ge_None. lia. }
  do 3 (split; [done|]).
  unfold _vec_push. destruct (decide (length vec = capacity vec)); [|lia].
  rewrite Hre. simpl. unfold store_back. simpl. by rewrite Hout.
Qed.

(** X22.  The vector is a stack: pops hand out the items it holds, last
    pushed first, each present, then only absent answers; the block and
    the capacity stay as they are and the length ends at 0. *)
Theorem pops_return_reverse vec xs (m : nat) :
  holds vec xs →
  ∃ vec',
    pop_times (List.length xs + m) vec
      = Some ((OPT_SOME <$> reverse xs) ++ replicate m (OPT_NONE TYPE), vec')
    ∧ holds vec' []
    ∧ capacity vec' = capacity vec
    ∧ v vec' = v vec.
Proof.
  revert vec. induction xs as [|x xs IH] using rev_ind; intros vec Hholds.
  - exists vec. split; [|done]. simpl.
    induction m as [|m IHm]; [done|].
    simpl. rewrite (pop_empty vec Hholds). simpl. by rewrite IHm.
  - destruct (pop_last vec xs x Hholds) as (vec1 & Hpop & Hholds1 & Hcap1 & Hv1).
    destruct (IH vec1 Hholds1) as (vec' & Hpops & Hholds' & Hcap' & Hv').
    exists vec'. split; [|split; [done|split; congruence]].
    rewrite length_app, reverse_snoc. simpl.
    replace (List.length xs + 1 + m)%nat with (S (List.length xs + m)) by lia.
    simpl. rewrite Hpop. simpl. by rewrite Hpops.
Qed.

(** X23.  [shrink] of a vector that holds at least one item: when the
    smaller block is granted, the capacity becomes the length and the
    items are the same; when it is refused, [shrink] returns
    [ERROR_OUT_OF_MEM] and the vector is as before. *)
Theorem shrink_to_length vec xs h :
  holds vec xs → xs ≠ [] →
  match malloc h with
  | (true, h1) =>
      ∃ vec', _vec_shrink vec h = Some (STATUS_OK, vec', h1)
        ∧ holds vec' xs
        ∧ capacity vec' = length vec
  | (false, h1) => _vec_shrink vec h = Some (ERROR_OUT_OF_MEM, vec, h1)
  end.
Proof.
  intros (Hlen & Hle & Hslots & Hitems) Hne.
  assert (Hpos : 0 < length vec) by (destruct xs; [done | simpl in Hlen; lia]).
  unfold _vec_shrink. destruct (malloc h) as [[|] h1] eqn:Hm.
  - rewrite (realloc_granted (v vec) _ h h1) by done. simpl.
    eexists. split; [reflexivity|]. split; [|reflexivity].
    unfold holds. simpl. split; [done|]. split; [lia|].
    rewrite Hlen, Nat2Z.id, Hitems.
    replace (List.length xs - List.length (v vec))%nat with 0%nat by lia.
    simpl. rewrite app_nil_r, length_fmap. split; [lia|].
    apply take_ge. by rewrite length_fmap.
  - by rewrite (realloc_refused (v vec) _ h h1) by done.
Qed.

(** X24.  Any number of pushes: on a vector of capacity at least 2, with
    every block granted, pushing the items [ys] one after the other
    returns [STATUS_OK] and leaves a vector that holds the old items
    followed by [ys]; the capacity never shrinks on the way. *)
Theorem push_all_holds vec xs (ys : list TYPE) h :
  holds vec xs → 2 ≤ capacity vec → Spec.granted h →
  ∃ vec' h',
    push_all ys vec h = Some (STATUS_OK, vec', h')
    ∧ holds vec' (xs ++ ys)
    ∧ capacity vec ≤ capacity vec'.
Proof.
  revert vec xs h. induction ys as [|y ys IH]; intros vec xs h Hholds Hcap Hg.
  { exists vec, h. rewrite app_nil_r. split; [reflexivity|]. split; [done|lia]. }
  destruct (malloc_granted h Hg) as (h1 & Hm & Hg1).
  destruct (push_granted vec xs y h Hholds) as
    (vec1 & h' & Hpush & Hholds1 & Hcap1 & Hh'); [by right | by rewrite Hm |].
  assert (Hcap1' : capacity vec ≤ capacity vec1).
  { rewrite Hcap1. destruct (decide _); [|lia].
    pose proof (grown_more (capacity vec) Hcap). lia. }
  assert (Hg' : Spec.granted h').
  { rewrite Hh'. destruct (decide _); [by rewrite Hm | done]. }
  destruct (IH vec1 (xs ++ [y]) h' Hholds1) as (vec' & h'' & Hall & Hholds' & Hcap');
    [lia | done |].
  exists vec', h''. split; [|split; [|lia]].
  - simpl. rewrite Hpush. simpl.
    destruct (decide (STATUS_OK ≠ 0)) as [Hne|_]; [by destruct Hne | done].
  - by rewrite <- app_assoc in Hholds'.
Qed.

End Generic.
End VecProps.

(** ** The further theorems at sample lists, maps and vectors *)

Module MoreWitnesses.
Import List_h Hashmap_h Spec ListSpec MapSpec Samples.

(** The hypotheses about the samples. *)
Ltac sample_chain := reflexivity.

Ltac sample_consistent :=
  constructor;
    [ intros a; by apply bool_decide_eq_true
    | intros a b Hab%bool_decide_eq_true; by apply bool_decide_eq_true
    | intros a b c Hab%bool_decide_eq_true Hbc%bool_decide_eq_true;
      apply bool_decide_eq_true; congruence
    | intros a b Hab%bool_decide_eq_true; by rewrite Hab ].

Ltac sample_homed :=
  let i := fresh "i" in let l := fresh "l" in let e := fresh "e" in
  let Hi := fresh "Hi" in let He := fresh "He" in
  intros i l e Hi He;
  destruct i as [|[|i]]; simpl in Hi; [| |discriminate];
  injection Hi as <-; simpl in He;
  repeat (apply elem_of_cons in He as [->|He]; [reflexivity|]);
  by apply elem_of_nil in He.

Ltac sample_distinct := repeat (split || constructor).

Ltac sample_inv :=
  constructor;
    [ reflexivity | repeat constructor | sample_homed | reflexivity
    | sample_distinct ].


Ltac sample_slots := split; [discriminate | reflexivity].


Ltac sample_holds := repeat split; (reflexivity || discriminate).

Lemma list_ops_keep_count_witness :
  chain_ok three
  ∧ ((∀ x h, chain_ok (_ll_pushb three x h).1.2)
     ∧ (∀ x h, chain_ok (_ll_pushf three x h).1.2)
     ∧ chain_ok (_ll_popf three).2
     ∧ chain_ok (_ll_popb three).2
     ∧ (∀ node prev, (node < List.length (root three))%nat →
          chain_ok (_ll_remove three node prev))).
Proof.
  split; [sample_chain|].
  apply (ListProps.list_ops_keep_count three). sample_chain.
Defined.

Lemma pushf_popf_round_trip_witness :
  (chain_ok three ∧ malloc [true] = (true, []))
  ∧ ∃ l1, _ll_pushf three 0 [true] = (STATUS_OK, l1, [])
      ∧ _ll_popf l1 = (OPT_SOME 0, three).
Proof.
  split; [split; [sample_chain | reflexivity]|].
  apply (ListProps.pushf_popf_round_trip three 0 [true] []);
    [sample_chain | reflexivity].
Defined.

Lemma pushb_popb_round_trip_witness :
  (chain_ok three ∧ malloc [true] = (true, []))
  ∧ ∃ l1, _ll_pushb three 4 [true] = (STATUS_OK, l1, [])
      ∧ _ll_popb l1 = (OPT_SOME 4, three).
Proof.
  split; [split; [sample_chain | reflexivity]|].
  apply (ListProps.pushb_popb_round_trip three 4 [true] []);
    [sample_chain | reflexivity].
Defined.

Lemma queue_order_witness :
  (chain_ok three ∧ granted [])
  ∧ ∃ l1 h1,
      pushb_all [4; 5] three [] = (STATUS_OK, l1, h1)
      ∧ length l1 = length three + Z.of_nat (List.length [4; 5])
      ∧ popf_times (List.length (root three) + List.length [4; 5] + 2) l1
          = ((OPT_SOME <$> (root three ++ [4; 5])) ++ replicate 2 (OPT_NONE Z),
             _ll_new).
Proof.
  split; [split; [sample_chain | constructor]|].
  apply (ListProps.queue_order three [4; 5] [] 2); [sample_chain | constructor].
Defined.

Lemma stack_order_at_back_witness :
  (chain_ok three ∧ granted [])
  ∧ ∃ l1 h1,
      pushb_all [4; 5] three [] = (STATUS_OK, l1, h1)
      ∧ popb_times (List.length (root three) + List.length [4; 5] + 2) l1
          = ((OPT_SOME <$> reverse (root three ++ [4; 5]))
             ++ replicate 2 (OPT_NONE Z), _ll_new).
Proof.
  split; [split; [sample_chain | constructor]|].
  apply (ListProps.stack_order_at_back three [4; 5] [] 2);
    [sample_chain | constructor].
Defined.

Lemma remove_node_witness :
  (chain_ok three ∧ root three !! 1%nat = Some 2)
  ∧ _ll_remove three 1 (Some 0%nat) =
      (if decide (Some 0%nat = node_before 1 ∨ 1%nat = 0%nat
                  ∨ 2%nat = List.length (root three))
       then {| root := delete 1%nat (root three); length := length three - 1 |}
       else three).
Proof.
  split; [split; [sample_chain | reflexivity]|].
  apply (ListProps.remove_node three 1 (Some 0%nat) 2);
    [sample_chain | reflexivity].
Defined.



Lemma hmap_inv_remove_witness :
  (hmap_inv abs_map ∧ 1 ≤ capacity abs_map ∧ 0 ≤ hash_func abs_map 2)
  ∧ ∃ r map',
      _hmap_remove abs_map 2 = Some (r, map')
      ∧ hmap_inv map'
      ∧ capacity map' = capacity abs_map
      ∧ hash_func map' = hash_func abs_map
      ∧ key_cmp map' = key_cmp abs_map.
Proof.
  split.
  - split; [sample_inv|]. split; discriminate.
  - apply (Preservation.hmap_inv_remove abs_map 2);
      [sample_inv | discriminate | discriminate].
Defined.




Lemma put_node_refused_keeps_map_witness :
  (slots_ok abs_map ∧ 0 ≤ hash_func abs_map 1
   ∧ lookup abs_map 1 = Some (OPT_NONE Tests.TestStruct)
   ∧ malloc [false] = (false, []))
  ∧ _hmap_put abs_map 1 (Tests.ts 1) [false]
      = Some (ERROR_OUT_OF_MEM, abs_map, []).
Proof.
  split.
  - split; [sample_slots|]. split; [discriminate|]. split; reflexivity.
  - apply (MapProps.put_node_refused_keeps_map abs_map 1 (Tests.ts 1) [false] []);
      [sample_slots | discriminate | reflexivity | reflexivity].
Defined.

Lemma remove_present_key_witness :
  (hmap_inv abs_map ∧ 1 ≤ capacity abs_map
   ∧ consistent (hash_func abs_map) (key_cmp abs_map)
   ∧ 0 ≤ hash_func abs_map 2
   ∧ lookup abs_map 2 = Some (OPT_SOME (Tests.ts 2)))
  ∧ ∃ map',
      _hmap_remove abs_map 2 = Some (OPT_SOME (Tests.ts 2), map')
      ∧ size map' = size abs_map - 1
      ∧ capacity map' = capacity abs_map
      ∧ hmap_inv map'
      ∧ lookup map' 2 = Some (OPT_NONE Tests.TestStruct).
Proof.
  split.
  - split; [sample_inv|]. split; [discriminate|]. split; [sample_consistent|].
    split; [discriminate | reflexivity].
  - apply (MapProps.remove_present_key abs_map 2 (Tests.ts 2));
      [sample_inv | discriminate | sample_consistent | discriminate | reflexivity].
Defined.

Lemma remove_leaves_other_keys_witness :
  (slots_ok abs_map ∧ Forall chain_ok (buckets abs_map)
   ∧ consistent (hash_func abs_map) (key_cmp abs_map)
   ∧ 0 ≤ hash_func abs_map 2)
  ∧ ∃ r map',
      _hmap_remove abs_map 2 = Some (r, map')
      ∧ ∀ k0, key_cmp abs_map 2 k0 = false → lookup map' k0 = lookup abs_map k0.
Proof.
  split.
  - split; [sample_slots|]. split; [repeat constructor|].
    split; [sample_consistent | discriminate].
  - apply (MapProps.remove_leaves_other_keys abs_map 2);
      [sample_slots | repeat constructor | sample_consistent | discriminate].
Defined.




Lemma push_pop_round_trip_witness :
  (VecSpec.holds full_pair [7; 8]
   ∧ (Vec_h.length full_pair < Vec_h.capacity full_pair
      ∨ 2 ≤ Vec_h.capacity full_pair)
   ∧ (Vec_h.length full_pair = Vec_h.capacity full_pair → (malloc []).1 = true))
  ∧ ∃ vec1 h1 vec2,
      Vec_h._vec_push full_pair 9 [] = Some (STATUS_OK, vec1, h1)
      ∧ Vec_h._vec_pop vec1 = Some (OPT_SOME 9, vec2)
      ∧ VecSpec.holds vec2 [7; 8]
      ∧ Vec_h.length vec2 = Vec_h.length full_pair
      ∧ Vec_h.capacity vec2 = Vec_h.capacity vec1.
Proof.
  split; [split; [sample_holds | split; [right; discriminate | reflexivity]]|].
  apply (VecProps.push_pop_round_trip full_pair [7; 8] 9 []);
    [sample_holds | right; discriminate | reflexivity].
Defined.

Lemma push_capacity_one_overflows_witness :
  (VecSpec.holds full_single [7] ∧ Vec_h.capacity full_single = 1
   ∧ malloc [] = (true, []))
  ∧ Vec_h.realloc (Vec_h.v full_single) (Vec_h.grown (Vec_h.capacity full_single)) []
      = Some (Some (Vec_h.v full_single), [])
  ∧ List.length (Vec_h.v full_single) = 1%nat
  ∧ at_index (Vec_h.v full_single) (Vec_h.length full_single) = None
  ∧ Vec_h._vec_push full_single 8 [] = None.
Proof.
  split; [split; [sample_holds | split; reflexivity]|].
  apply (VecProps.push_capacity_one_overflows full_single 7 8 [] []);
    [sample_holds | reflexivity | reflexivity].
Defined.

Lemma pops_return_reverse_witness :
  VecSpec.holds full_pair [7; 8]
  ∧ ∃ vec',
      VecSpec.pop_times (List.length [7; 8] + 1) full_pair
        = Some ((OPT_SOME <$> reverse [7; 8]) ++ replicate 1 (OPT_NONE Z), vec')
      ∧ VecSpec.holds vec' []
      ∧ Vec_h.capacity vec' = Vec_h.capacity full_pair
      ∧ Vec_h.v vec' = Vec_h.v full_pair.
Proof.
  split; [sample_holds|].
  apply (VecProps.pops_return_reverse full_pair [7; 8] 1). sample_holds.
Defined.

Lemma shrink_to_length_witness :
  (VecSpec.holds full_pair [7; 8] ∧ [7; 8] ≠ [])
  ∧ match malloc [] with
    | (true, h1) =>
        ∃ vec', Vec_h._vec_shrink full_pair [] = Some (STATUS_OK, vec', h1)
          ∧ VecSpec.holds vec' [7; 8]
          ∧ Vec_h.capacity vec' = Vec_h.length full_pair
    | (false, h1) =>
        Vec_h._vec_shrink full_pair [] = Some (ERROR_OUT_OF_MEM, full_pair, h1)
    end.
Proof.
  split; [split; [sample_holds | discriminate]|].
  apply (VecProps.shrink_to_length full_pair [7; 8] []);
    [sample_holds | discriminate].
Defined.

Lemma push_all_holds_witness :
  (VecSpec.holds full_pair [7; 8] ∧ 2 ≤ Vec_h.capacity full_pair ∧ granted [])
  ∧ ∃ vec' h',
      VecSpec.push_all [9; 10; 11] full_pair [] = Some (STATUS_OK, vec', h')
      ∧ VecSpec.holds vec' ([7; 8] ++ [9; 10; 11])
      ∧ Vec_h.capacity full_pair ≤ Vec_h.capacity vec'.
Proof.
  split; [split; [sample_holds | split; [discriminate | constructor]]|].
  apply (VecProps.push_all_holds full_pair [7; 8] [9; 10; 11] []);
    [sample_holds | discriminate | constructor].
Defined.

End MoreWitnesses.
